(** * translate_V2.py: merged-cell aware bilingual annotation of a workbook

    A shallow embedding of [translate_excel_sheets] and
    [translate_selected_sheets] from [src/translate_V2.py], and the
    properties of the region index, the cell traversal, the translation
    cache and the column layout pass that the specification states.

    Conventions of the embedding.
    - A Python [str] is the list of its Unicode code points.
    - A cell object is addressed by its [(row, column)] pair; the dictionary
      [merged_master_cells], whose values are cell objects of the sheet, is
      kept as a dictionary from coordinates to coordinates.  The code reads
      [.row] and [.column] of those objects and otherwise uses the object
      only when it sits at the visited coordinate.
    - The translation service is a function from the text and the two
      locale names to an optional translation; [None] stands for any
      exception raised by [translator.translate].
    - Calls to the service, [time.sleep] and [print] are recorded, in order,
      in a trace.  [time.sleep] raises for a negative length; a pause that
      raises leaves no [Sleep] event. *)

From Stdlib Require Import Ascii String Qcanon.
From stdpp Require Import base numbers option list strings gmap sets.

Set Default Proof Using "Type".
Set Warnings "-clear-no-such-hyp".

(** ** Strings *)

Abbreviation char := N (only parsing).
Abbreviation str := (list N) (only parsing).

Definition newline : N := 10%N.

(** [str.isspace] on one code point: the characters [str.strip] removes. *)
Definition is_space (c : char) : bool :=
  ((9 <=? c) && (c <=? 13) || (28 <=? c) && (c <=? 32) || (c =? 133) || (c =? 160)
   || (c =? 5760) || (8192 <=? c) && (c <=? 8202) || (c =? 8232) || (c =? 8233)
   || (c =? 8239) || (c =? 8287) || (c =? 12288))%N.

Fixpoint lstrip (s : str) : str :=
  match s with
  | [] => []
  | c :: s' => if is_space c then lstrip s' else s
  end.

Definition rstrip (s : str) : str := rev (lstrip (rev s)).

(** [text.strip()] *)
Definition strip (s : str) : str := rstrip (lstrip s).

(** One code point in U+4E00..U+9FFF. *)
Definition is_cjk (c : char) : bool := ((19968 <=? c) && (c <=? 40959))%N.

(** The test [re.search(r'[\u4e00-\u9fff]', s)] as a truth value. *)
Definition has_cjk (s : str) : bool := existsb is_cjk s.

(** [s.split('\n')] *)
Fixpoint split_lines (s : str) : list str :=
  match s with
  | [] => [[]]
  | c :: s' =>
      if (c =? newline)%N then [] :: split_lines s'
      else match split_lines s' with
           | line :: lines => (c :: line) :: lines
           | [] => [[c]]
           end
  end.

(** [max(len(line) for line in s.split('\n'))] *)
Definition max_line_length (s : str) : nat := max_list (length <$> split_lines s).

(** ** Merged ranges and the region index *)

Abbreviation coord := (nat * nat)%type (only parsing).

Record merged_range := MergedRange {
  min_row : nat;
  min_col : nat;
  max_row : nat;
  max_col : nat
}.

(** Python's [range(start, stop)]. *)
Definition range (start stop : nat) : list nat := seq start (stop - start).

(** The coordinates the two nested [for] loops over a merged range visit,
    in the order they visit them. *)
Definition range_cells (mr : merged_range) : list coord :=
  row ← range (min_row mr) (max_row mr + 1);
  col ← range (min_col mr) (max_col mr + 1);
  [(row, col)].

(** Coordinate of [sheet.cell(merged_range.min_row, merged_range.min_col)]. *)
Definition master_of_range (mr : merged_range) : coord := (min_row mr, min_col mr).

(** Lines 75-79: the set [merged_cells]. *)
Definition build_merged_cells (merged_ranges : list merged_range) : gset coord :=
  foldl (λ merged_cells mr,
           foldl (λ acc x, acc ∪ {[ x ]}) merged_cells (range_cells mr))
        ∅ merged_ranges.

(** Lines 82-87: the dictionary [merged_master_cells]. *)
Definition build_merged_master_cells (merged_ranges : list merged_range)
  : gmap coord coord :=
  foldl (λ merged_master_cells mr,
           let master_cell := master_of_range mr in
           foldl (λ acc x, <[ x := master_cell ]> acc) merged_master_cells (range_cells mr))
        ∅ merged_ranges.

(** [x] lies in the rectangle of [mr]. *)
Definition in_range (mr : merged_range) (x : coord) : Prop :=
  min_row mr ≤ x.1 ≤ max_row mr ∧ min_col mr ≤ x.2 ≤ max_col mr.

Global Instance in_range_dec mr x : Decision (in_range mr x).
Proof. unfold in_range. apply _. Defined.

(** No coordinate lies in two regions at different positions of the list. *)
Definition pairwise_disjoint (rs : list merged_range) : Prop :=
  ∀ i j R R' x, i ≠ j → rs !! i = Some R → rs !! j = Some R' →
    in_range R x → in_range R' x → False.

(** ** Cells, sheets and workbooks *)

(** What [cell.value] can hold.  [VOther] stands for the values of every
    other type (float, datetime, ...), with their truth value. *)
Inductive cell_value :=
  | VNone
  | VStr (s : str)
  | VInt (n : Z)
  | VBool (b : bool)
  | VOther (truth : bool).

Global Instance cell_value_eq_dec : EqDecision cell_value.
Proof. solve_decision. Defined.

(** Python's truth value of [cell.value]. *)
Definition truthy (v : cell_value) : bool :=
  match v with
  | VNone => false
  | VStr s => negb (bool_decide (s = []))
  | VInt n => negb (n =? 0)%Z
  | VBool b => b
  | VOther truth => truth
  end.

(** [openpyxl.styles.Alignment]; every argument the constructor is not given
    is [None]. *)
Record Alignment := mkAlignment {
  horizontal : option str;
  vertical : option str;
  wrapText : option bool
}.

Global Instance Alignment_eq_dec : EqDecision Alignment.
Proof. solve_decision. Defined.

Definition ascii_str (s : string) : str :=
  (λ a, N_of_ascii a) <$> list_ascii_of_string s.

(** [Alignment(wrapText=True, vertical='top')] *)
Definition wrap_top : Alignment :=
  {| horizontal := None; vertical := Some (ascii_str "top"); wrapText := Some true |}.

(** [Alignment(wrapText=True)] *)
Definition wrap_only : Alignment :=
  {| horizontal := None; vertical := None; wrapText := Some true |}.

Record cell := Cell {
  value : cell_value;
  alignment : Alignment
}.

Global Instance cell_eq_dec : EqDecision cell.
Proof. solve_decision. Defined.

(** The cell [sheet.cell] creates where none is stored. *)
Definition blank_cell : cell :=
  {| value := VNone; alignment := mkAlignment None None None |}.

(** A worksheet.  [sheet_max_row] and [sheet_max_column] are the attributes
    [sheet.max_row] and [sheet.max_column] of the workbook library; no
    statement of the two functions changes them.  [column_width] holds
    [sheet.column_dimensions[letter].width] under the column's index
    ([get_column_letter] is one-to-one). *)
Record sheet := Sheet {
  sheet_max_row : nat;
  sheet_max_column : nat;
  merged_ranges : list merged_range;
  cells : gmap coord cell;
  column_width : gmap nat Qc
}.

(** [sheet.cell(row, column)] *)
Definition sheet_cell (sh : sheet) (x : coord) : cell :=
  default blank_cell (cells sh !! x).

Definition set_cell (sh : sheet) (x : coord) (c : cell) : sheet :=
  {| sheet_max_row := sheet_max_row sh; sheet_max_column := sheet_max_column sh;
     merged_ranges := merged_ranges sh; cells := <[ x := c ]> (cells sh);
     column_width := column_width sh |}.

(** [cell.value = v] for the cell at [x] *)
Definition set_value (sh : sheet) (x : coord) (v : cell_value) : sheet :=
  set_cell sh x {| value := v; alignment := alignment (sheet_cell sh x) |}.

(** [cell.alignment = a] for the cell at [x] *)
Definition set_alignment (sh : sheet) (x : coord) (a : Alignment) : sheet :=
  set_cell sh x {| value := value (sheet_cell sh x); alignment := a |}.

(** [sheet.column_dimensions[column_letter].width = w] *)
Definition set_width (sh : sheet) (col_idx : nat) (w : Qc) : sheet :=
  {| sheet_max_row := sheet_max_row sh; sheet_max_column := sheet_max_column sh;
     merged_ranges := merged_ranges sh; cells := cells sh;
     column_width := <[ col_idx := w ]> (column_width sh) |}.

(** A workbook: the sheet titles in order, and the sheet under each title. *)
Record workbook := Workbook {
  sheetnames : list str;
  worksheets : gmap str sheet
}.

Definition set_sheet (wb : workbook) (name : str) (sh : sheet) : workbook :=
  {| sheetnames := sheetnames wb; worksheets := <[ name := sh ]> (worksheets wb) |}.

(** The listed titles are the titles of the sheets and none is listed twice, as the
    workbook library guarantees. *)
Definition workbook_wf (wb : workbook) : Prop :=
  NoDup (sheetnames wb) ∧ ∀ name, name ∈ sheetnames wb ↔ is_Some (worksheets wb !! name).

(** ** The run state: translation cache and trace *)

Inductive message :=
  | MsgLoading (input_file : str)
  | MsgSheet (sheet_name : str)
  | MsgTranslateFailed (text : str)
  | MsgSaving (output_file : str)
  | MsgDone
  | MsgStatistics (sheets cached : nat)
  | MsgSelectedDone (output_file : str).

Inductive event :=
  | Translate (text src dest : str)
  | Sleep (seconds : Qc)
  | Print (m : message).

Global Instance message_eq_dec : EqDecision message.
Proof. solve_decision. Defined.
Global Instance event_eq_dec : EqDecision event.
Proof. solve_decision. Defined.

Record state := State {
  translation_cache : gmap str str;
  trace : list event
}.

Definition emit (es : list event) (st : state) : state :=
  {| translation_cache := translation_cache st; trace := trace st ++ es |}.

Definition cache_store (text result : str) (st : state) : state :=
  {| translation_cache := <[ text := result ]> (translation_cache st); trace := trace st |}.

(** [e] is a call [translator.translate(text, ...)]. *)
Definition is_call (text : str) (e : event) : bool :=
  match e with
  | Translate text' _ _ => bool_decide (text' = text)
  | _ => false
  end.

(** Number of calls [translator.translate(text, ...)] in a trace. *)
Definition translate_calls (text : str) (tr : list event) : nat :=
  length (filter (λ e, is_call text e) tr).

(** [f"{translated.text}\n{text}"] *)
Definition bilingual (translated text : str) : str := translated ++ [newline] ++ text.

(** Which coordinate's cell the traversal works on at [x], lines 93-103 and
    211-219: [None] is [continue]. *)
Definition resolve_cell (merged_cells : gset coord)
    (merged_master_cells : gmap coord coord) (x : coord) : option coord :=
  if decide (x ∈ merged_cells) then
    match merged_master_cells !! x with
    | Some master => if decide (x.1 ≠ master.1 ∨ x.2 ≠ master.2) then None else Some master
    | None => None
    end
  else Some x.

(** The test of lines 133-137 in the width pass: [true] is [continue]. *)
Definition layout_skips (merged_cells : gset coord)
    (merged_master_cells : gmap coord coord) (x : coord) : bool :=
  if decide (x ∈ merged_cells) then
    match merged_master_cells !! x with
    | Some master => bool_decide (master.1 ≠ x.1 ∨ master.2 ≠ x.2)
    | None => false
    end
  else false.

(** ** The two entry operations *)

(** What a call receives from outside: the translation service behind
    [Translator()], the file names and the two locale names. *)
Record run_env := RunEnv {
  translator_translate : str → str → str → option str;
  input_file : str;
  output_file : str;
  src_lang : str;
  tgt_lang : str
}.

(** [time.sleep(seconds)] returns for a length that is not negative and
    raises [ValueError] for a negative one. *)
Definition sleep_returns (seconds : Qc) : bool := bool_decide (0 ≤ seconds)%Qc.

(** Lines 37-64, the closure [translate_text].  The handler of lines 62-64
    catches what [translator.translate] raises and what [time.sleep] raises;
    the latter comes after the result was stored in the cache. *)
Definition translate_text (E : run_env) (delay : Qc)
    (text : cell_value) (st : state) : cell_value * state :=
  match text with
  | VStr s =>
      if negb (truthy text) then (text, st)
      else
        let text := strip s in
        match translation_cache st !! text with
        | Some cached => (VStr cached, st)
        | None =>
            let st := emit [Translate text (src_lang E) (tgt_lang E)] st in
            match translator_translate E text (src_lang E) (tgt_lang E) with
            | Some translated =>
                let result := bilingual translated text in
                let st := cache_store text result st in
                if sleep_returns delay then
                  let st := emit [Sleep delay] st in
                  (VStr result, st)
                else
                  let st := emit [Print (MsgTranslateFailed text)] st in
                  (VStr text, st)
            | None =>
                let st := emit [Print (MsgTranslateFailed text)] st in
                (VStr text, st)
            end
        end
  | _ => (text, st)
  end.

(** Lines 92-122: the body of the traversal at one coordinate.  The handler
    of lines 120-122 has no case here: [translate_text] catches what the
    service and [time.sleep] raise. *)
Definition walk_cell (E : run_env) (delay : Qc) (merged_cells : gset coord)
    (merged_master_cells : gmap coord coord) (x : coord)
    (σ : sheet * state) : sheet * state :=
  match resolve_cell merged_cells merged_master_cells x with
  | None => σ
  | Some c =>
      match value (sheet_cell σ.1 c) with
      | VStr s =>
          if truthy (VStr s) && has_cjk s then
            let '(translated_content, st) := translate_text E delay (VStr s) σ.2 in
            let sh := set_value σ.1 c translated_content in
            let sh := set_alignment sh c wrap_top in
            (sh, st)
          else σ
      | _ => σ
      end
  end.

(** Lines 90-122: the row-major traversal of one sheet. *)
Definition walk_sheet (E : run_env) (delay : Qc) (merged_cells : gset coord)
    (merged_master_cells : gmap coord coord) (σ : sheet * state) : sheet * state :=
  foldl (λ σ row,
           foldl (λ σ col, walk_cell E delay merged_cells merged_master_cells (row, col) σ)
                 σ (range 1 (sheet_max_column σ.1 + 1)))
        σ (range 1 (sheet_max_row σ.1 + 1)).

(** Lines 126-143: [max_length] of one column. *)
Definition column_max_length (merged_cells : gset coord)
    (merged_master_cells : gmap coord coord) (sh : sheet) (col_idx : nat) : nat :=
  foldl (λ max_length row,
           let cell := sheet_cell sh (row, col_idx) in
           if truthy (value cell) then
             if layout_skips merged_cells merged_master_cells (row, col_idx)
             then max_length
             else match value cell with
                  | VStr s =>
                      let cell_length := max_line_length s in
                      if bool_decide (max_length < cell_length)%nat then cell_length
                      else max_length
                  | _ => max_length
                  end
           else max_length)
        0 (range 1 (sheet_max_row sh + 1)).

(** Lines 125-148: the width pass over the columns of one sheet. *)
Definition adjust_columns (merged_cells : gset coord)
    (merged_master_cells : gmap coord coord) (sh : sheet) : sheet :=
  foldl (λ sh col_idx,
           let max_length := column_max_length merged_cells merged_master_cells sh col_idx in
           if bool_decide (0 < max_length)%nat then
             let adjusted_width := Nat.min (max_length + 2) 50 in
             set_width sh col_idx (Qc_of_Z (Z.of_nat adjusted_width))
           else sh)
        sh (range 1 (sheet_max_column sh + 1)).

(** Lines 71-148: everything done to one sheet by [translate_excel_sheets]. *)
Definition process_sheet (E : run_env) (delay : Qc)
    (σ : sheet * state) : sheet * state :=
  let merged_cells := build_merged_cells (merged_ranges σ.1) in
  let merged_master_cells := build_merged_master_cells (merged_ranges σ.1) in
  let σ := walk_sheet E delay merged_cells merged_master_cells σ in
  (adjust_columns merged_cells merged_master_cells σ.1, σ.2).

(** A [for sheet_name in ...] loop whose body may raise; [None] is the
    exception leaving the loop. *)
Fixpoint for_each_sheet (body : str → workbook * state → option (workbook * state))
    (names : list str) (ρ : workbook * state) : option (workbook * state) :=
  match names with
  | [] => Some ρ
  | sheet_name :: names => ρ' ← body sheet_name ρ; for_each_sheet body names ρ'
  end.

(** Lines 68-148: the body of the loop over the sheets.  [workbook[name]]
    raises [KeyError] when no sheet has that title. *)
Definition all_sheets_body (E : run_env) (delay : Qc) (sheet_name : str)
    (ρ : workbook * state) : option (workbook * state) :=
  let st := emit [Print (MsgSheet sheet_name)] ρ.2 in
  sh ← worksheets ρ.1 !! sheet_name;
  let σ := process_sheet E delay (sh, st) in
  Some (set_sheet ρ.1 sheet_name σ.1, σ.2).

Definition initial_state : state := {| translation_cache := ∅; trace := [] |}.

(** [translate_excel_sheets], from the workbook [load_workbook] returned to
    the workbook handed to [workbook.save]. *)
Definition translate_excel_sheets (E : run_env) (delay : Qc)
    (wb : workbook) : option (workbook * state) :=
  let st := emit [Print (MsgLoading (input_file E))] initial_state in
  ρ ← for_each_sheet (all_sheets_body E delay) (sheetnames wb) (wb, st);
  let st := emit [Print (MsgSaving (output_file E)); Print MsgDone;
                  Print (MsgStatistics (length (sheetnames ρ.1))
                                       (size (translation_cache ρ.2)))] ρ.2 in
  Some (ρ.1, st).

(** The literal [0.1] of [time.sleep(0.1)] and of the default [delay]. *)
Definition one_tenth : Qc := Q2Qc (QArith_base.Qmake 1 10).

(** Lines 210-241: the body of the traversal of [translate_selected_sheets]
    at one coordinate.  The pause of line 237 has the literal length [0.1],
    which [time.sleep] accepts. *)
Definition walk_cell_selected (E : run_env) (merged_cells : gset coord)
    (merged_master_cells : gmap coord coord) (x : coord)
    (σ : sheet * state) : sheet * state :=
  match resolve_cell merged_cells merged_master_cells x with
  | None => σ
  | Some c =>
      match value (sheet_cell σ.1 c) with
      | VStr s =>
          if truthy (VStr s) && has_cjk s then
            let text := strip s in
            match translation_cache σ.2 !! text with
            | Some cached => (set_value σ.1 c (VStr cached), σ.2)
            | None =>
                let st := emit [Translate text (src_lang E) (tgt_lang E)] σ.2 in
                match translator_translate E text (src_lang E) (tgt_lang E) with
                | Some translated =>
                    let result := bilingual translated text in
                    let st := cache_store text result st in
                    let sh := set_value σ.1 c (VStr result) in
                    let sh := set_alignment sh c wrap_only in
                    (sh, emit [Sleep one_tenth] st)
                | None => (σ.1, emit [Print (MsgTranslateFailed text)] st)
                end
            end
          else σ
      | _ => σ
      end
  end.

(** Lines 208-241 *)
Definition walk_sheet_selected (E : run_env) (merged_cells : gset coord)
    (merged_master_cells : gmap coord coord) (σ : sheet * state) : sheet * state :=
  foldl (λ σ row,
           foldl (λ σ col, walk_cell_selected E merged_cells merged_master_cells (row, col) σ)
                 σ (range 1 (sheet_max_column σ.1 + 1)))
        σ (range 1 (sheet_max_row σ.1 + 1)).

(** Lines 193-241: everything done to one sheet by
    [translate_selected_sheets]. *)
Definition process_sheet_selected (E : run_env) (σ : sheet * state) : sheet * state :=
  let merged_cells := build_merged_cells (merged_ranges σ.1) in
  let merged_master_cells := build_merged_master_cells (merged_ranges σ.1) in
  walk_sheet_selected E merged_cells merged_master_cells σ.

(** Lines 188-241: the body of the loop over [sheet_names]. *)
Definition selected_sheets_body (E : run_env) (sheet_name : str)
    (ρ : workbook * state) : option (workbook * state) :=
  if decide (sheet_name ∈ sheetnames ρ.1) then
    let st := emit [Print (MsgSheet sheet_name)] ρ.2 in
    sh ← worksheets ρ.1 !! sheet_name;
    let σ := process_sheet_selected E (sh, st) in
    Some (set_sheet ρ.1 sheet_name σ.1, σ.2)
  else Some ρ.

(** [translate_selected_sheets] *)
Definition translate_selected_sheets (E : run_env) (sheet_names : list str)
    (wb : workbook) : option (workbook * state) :=
  ρ ← for_each_sheet (selected_sheets_body E) sheet_names (wb, initial_state);
  Some (ρ.1, emit [Print (MsgSelectedDone (output_file E))] ρ.2).

(** ** Vocabulary of the specification *)

(** The coordinates of a sheet's grid, row-major. *)
Definition grid_coords (sh : sheet) : list coord :=
  row ← range 1 (sheet_max_row sh + 1);
  col ← range 1 (sheet_max_column sh + 1);
  [(row, col)].

Definition in_grid (sh : sheet) (x : coord) : Prop :=
  (1 ≤ x.1 ≤ sheet_max_row sh ∧ 1 ≤ x.2 ≤ sheet_max_column sh)%nat.

Global Instance in_grid_dec sh x : Decision (in_grid sh x).
Proof. unfold in_grid. apply _. Defined.

(** A coordinate is eligible when it is unmapped (outside every merged
    region) or a master (the index maps it to itself). *)
Definition eligible (merged_cells : gset coord)
    (merged_master_cells : gmap coord coord) (x : coord) : Prop :=
  x ∉ merged_cells ∨ merged_master_cells !! x = Some x.

Global Instance eligible_dec mc mm x : Decision (eligible mc mm x).
Proof. unfold eligible. apply _. Defined.

Definition eligible_in (sh : sheet) (x : coord) : Prop :=
  eligible (build_merged_cells (merged_ranges sh))
           (build_merged_master_cells (merged_ranges sh)) x.

Global Instance eligible_in_dec sh x : Decision (eligible_in sh x).
Proof. unfold eligible_in. apply _. Defined.

(** A value qualifies for translation: it is textual and has a code point
    in U+4E00..U+9FFF. *)
Definition qualifies (v : cell_value) : bool :=
  match v with
  | VStr s => has_cjk s
  | _ => false
  end.

(** The normalized text of a textual value. *)
Definition normalized (v : cell_value) : option str :=
  match v with
  | VStr s => Some (strip s)
  | _ => None
  end.

(** The service's answer for a text under the locales of the call. *)
Definition service (E : run_env) (text : str) : option str :=
  translator_translate E text (src_lang E) (tgt_lang E).

(** What the traversal of [translate_excel_sheets] leaves in an eligible
    cell of the grid, as a function of what the cell held. *)
Definition annotated_value (E : run_env) (v : cell_value) : cell_value :=
  match v with
  | VStr s =>
      if has_cjk s then
        match service E (strip s) with
        | Some translated => VStr (bilingual translated (strip s))
        | None => VStr (strip s)
        end
      else v
  | _ => v
  end.

Definition annotated_cell (E : run_env) (c : cell) : cell :=
  if qualifies (value c)
  then {| value := annotated_value E (value c); alignment := wrap_top |}
  else c.

(** Every cache entry is the bilingual string of its key. *)
Definition cache_ok (E : run_env) (st : state) : Prop :=
  ∀ text result, translation_cache st !! text = Some result →
    ∃ translated, service E text = Some translated ∧ result = bilingual translated text.

(** A text the service translates has been sent to it once if it is cached
    and never otherwise. *)
Definition calls_ok (E : run_env) (st : state) : Prop :=
  ∀ text, is_Some (service E text) →
    translate_calls text (trace st)
    = match translation_cache st !! text with Some _ => 1%nat | None => 0%nat end.

Definition run_inv (E : run_env) (st : state) : Prop := cache_ok E st ∧ calls_ok E st.

Definition is_translate (e : event) : bool :=
  match e with
  | Translate _ _ _ => true
  | _ => false
  end.

(** Number of calls to the service in a trace, whatever the text. *)
Definition calls_made (tr : list event) : nat :=
  length (filter (λ e, is_translate e) tr).

(** Following the specification's words: the maximum single-line length over
    the eligible cells of a column whose value is textual. *)
Definition spec_max_length (sh : sheet) (col : nat) : nat :=
  max_list
    (omap (λ row,
             if decide (eligible_in sh (row, col)) then
               match value (sheet_cell sh (row, col)) with
               | VStr s => Some (max_line_length s)
               | _ => None
               end
             else None)
          (range 1 (sheet_max_row sh + 1))).

(** Two sheets have the same shape. *)
Definition same_shape (sh sh' : sheet) : Prop :=
  sheet_max_row sh' = sheet_max_row sh
  ∧ sheet_max_column sh' = sheet_max_column sh
  ∧ merged_ranges sh' = merged_ranges sh.

(** [sh'] is [sh] after the traversal of [translate_excel_sheets]: the
    eligible cells of the grid are annotated and nothing else differs. *)
Definition annotated_sheet (E : run_env) (sh sh' : sheet) : Prop :=
  same_shape sh sh'
  ∧ ∀ x, sheet_cell sh' x
         = if decide (in_grid sh x ∧ eligible_in sh x)
           then annotated_cell E (sheet_cell sh x)
           else sheet_cell sh x.

(** The widths of [sh'] are those the width pass computes from the cells of
    [sh'], over the widths [sh] stored. *)
Definition widths_adjusted (sh sh' : sheet) : Prop :=
  ∀ col, column_width sh' !! col
         = if decide ((1 ≤ col ≤ sheet_max_column sh)%nat ∧ (0 < spec_max_length sh' col)%nat)
           then Some (Qc_of_Z (Z.of_nat (Nat.min (spec_max_length sh' col + 2) 50)))
           else column_width sh !! col.

(** The trimmed text of a textual value. *)
Definition trimmed_value (v : cell_value) : cell_value :=
  match v with
  | VStr s => VStr (strip s)
  | _ => v
  end.

(** What the traversal of [translate_excel_sheets] does to a cell it works
    on, for any [delay]: a cell that does not qualify is left as it is; a
    cell that qualifies receives the wrap alignment and the annotated value,
    or, when [time.sleep] rejects [delay], possibly its trimmed text. *)
Definition cell_written (E : run_env) (delay : Qc) (c c' : cell) : Prop :=
  if qualifies (value c) then
    alignment c' = wrap_top
    ∧ (value c' = annotated_value E (value c)
       ∨ (sleep_returns delay = false ∧ value c' = trimmed_value (value c)))
  else c' = c.

Definition written_sheet (E : run_env) (delay : Qc) (sh sh' : sheet) : Prop :=
  same_shape sh sh'
  ∧ ∀ x, (in_grid sh x ∧ eligible_in sh x →
          cell_written E delay (sheet_cell sh x) (sheet_cell sh' x))
         ∧ (¬ (in_grid sh x ∧ eligible_in sh x) → sheet_cell sh' x = sheet_cell sh x).

(** Everything the traversal and the width pass leave behind in one sheet. *)
Definition sheet_processed (E : run_env) (delay : Qc) (sh sh' : sheet) (st' : state) : Prop :=
  written_sheet E delay sh sh'
  ∧ widths_adjusted sh sh'
  ∧ ∀ y s, in_grid sh y → eligible_in sh y → value (sheet_cell sh y) = VStr s →
           has_cjk s = true → is_Some (service E (strip s)) →
           is_Some (translation_cache st' !! strip s).

(** The value stored at a coordinate of a named sheet. *)
Definition value_at (wb : workbook) (name : str) (x : coord) : option cell_value :=
  sh ← worksheets wb !! name; Some (value (sheet_cell sh x)).

(** [sh'] has the shape and the cell values of [sh]. *)
Definition same_values (sh sh' : sheet) : Prop :=
  same_shape sh sh' ∧ ∀ x, value (sheet_cell sh' x) = value (sheet_cell sh x).

(** [sh'] differs from [sh] at most in eligible cells of the grid. *)
Definition sheet_framed (sh sh' : sheet) : Prop :=
  same_shape sh sh'
  ∧ column_width sh' = column_width sh
  ∧ ∀ y, ¬ (in_grid sh y ∧ eligible_in sh y) → sheet_cell sh' y = sheet_cell sh y.

(** Two states, one of each traversal, with the same cell values and the
    same cache. *)
Definition states_agree (σa σs : sheet * state) : Prop :=
  same_values σa.1 σs.1 ∧ translation_cache σs.2 = translation_cache σa.2.

(** Two run states of the two operations that agree on the titles, on the
    shape and the values of every sheet, and on the cache. *)
Definition runs_agree (ρa ρs : workbook * state) : Prop :=
  sheetnames ρs.1 = sheetnames ρa.1
  ∧ translation_cache ρs.2 = translation_cache ρa.2
  ∧ ∀ n, option_Forall2 same_values (worksheets ρa.1 !! n) (worksheets ρs.1 !! n).

(** The loop of [translate_excel_sheets] run over the given titles only,
    from an empty cache. *)
Definition all_sheets_pipeline_on (E : run_env) (delay : Qc) (names : list str)
    (wb : workbook) : option (workbook * state) :=
  for_each_sheet (all_sheets_body E delay) names (wb, initial_state).

(** The sheet a run left under a title. *)
Definition sheet_after (r : option (workbook * state)) (name : str) : option sheet :=
  ρ ← r; worksheets ρ.1 !! name.

(** ** Sample data *)

Definition sample_regions : list merged_range :=
  [MergedRange 1 1 2 2; MergedRange 3 1 3 4].

(** The two ideographs U+6D4B U+8BD5. *)
Definition cjk_test : str := [27979; 35797]%N.

(** The same text between two spaces. *)
Definition cjk_test_spaced : str := [32; 27979; 35797; 32]%N.

(** A service that knows one text. *)
Definition sample_translator (text src dest : str) : option str :=
  if bool_decide (text = cjk_test) then Some (ascii_str "Test") else None.

(** A service that always raises. *)
Definition failing_translator (text src dest : str) : option str := None.

Definition sample_env : run_env :=
  {| translator_translate := sample_translator;
     input_file := ascii_str "in.xlsx"; output_file := ascii_str "out.xlsx";
     src_lang := ascii_str "zh-cn"; tgt_lang := ascii_str "en" |}.

Definition failing_env : run_env :=
  {| translator_translate := failing_translator;
     input_file := ascii_str "in.xlsx"; output_file := ascii_str "out.xlsx";
     src_lang := ascii_str "zh-cn"; tgt_lang := ascii_str "en" |}.

Definition text_cell (s : str) : cell := {| value := VStr s; alignment := alignment blank_cell |}.

Definition sheet1 : str := ascii_str "Sheet1".

(** Region A1:B2 with the text in A1, and "Hello" in C1. *)
Definition sample_sheet : sheet :=
  {| sheet_max_row := 2; sheet_max_column := 3;
     merged_ranges := [MergedRange 1 1 2 2];
     cells := {[ (1, 1) := text_cell cjk_test; (1, 3) := text_cell (ascii_str "Hello") ]};
     column_width := ∅ |}.

Definition sample_workbook : workbook :=
  {| sheetnames := [sheet1]; worksheets := {[ sheet1 := sample_sheet ]} |}.

(** The same text in A1 and, between spaces, in B1; no merged region. *)
Definition twin_sheet : sheet :=
  {| sheet_max_row := 1; sheet_max_column := 2;
     merged_ranges := [];
     cells := {[ (1, 1) := text_cell cjk_test; (1, 2) := text_cell cjk_test_spaced ]};
     column_width := ∅ |}.

Definition twin_workbook : workbook :=
  {| sheetnames := [sheet1]; worksheets := {[ sheet1 := twin_sheet ]} |}.

(** What a run left at a coordinate of a named sheet. *)
Definition cell_after (r : option (workbook * state)) (name : str) (x : coord) : option cell :=
  ρ ← r; sh ← worksheets ρ.1 !! name; Some (sheet_cell sh x).

(** The width a run left for a column of a named sheet, as a fraction. *)
Definition width_after (r : option (workbook * state)) (name : str) (col : nat)
  : option (option QArith_base.Q) :=
  ρ ← r; sh ← worksheets ρ.1 !! name; Some (this <$> column_width sh !! col).

Definition calls_after (r : option (workbook * state)) (text : str) : option nat :=
  ρ ← r; Some (translate_calls text (trace ρ.2)).

(** A service that translates every text. *)
Definition constant_translator (text src dest : str) : option str := Some (ascii_str "Test").

Definition total_env : run_env :=
  {| translator_translate := constant_translator;
     input_file := ascii_str "in.xlsx"; output_file := ascii_str "out.xlsx";
     src_lang := ascii_str "zh-cn"; tgt_lang := ascii_str "en" |}.

(** The text between two spaces in A1, "Hello" in B1. *)
Definition spaced_sheet : sheet :=
  {| sheet_max_row := 1; sheet_max_column := 2;
     merged_ranges := [];
     cells := {[ (1, 1) := text_cell cjk_test_spaced; (1, 2) := text_cell (ascii_str "Hello") ]};
     column_width := ∅ |}.

Definition spaced_workbook : workbook :=
  {| sheetnames := [sheet1]; worksheets := {[ sheet1 := spaced_sheet ]} |}.

Definition trace_after (r : option (workbook * state)) : option (list event) :=
  ρ ← r; Some (trace ρ.2).

(** A delay that [time.sleep] rejects. *)
Definition minus_one : Qc := Qc_of_Z (-1).

(** The maximum line length a run left in a column of a named sheet. *)
Definition length_after (r : option (workbook * state)) (name : str) (col : nat) : option nat :=
  ρ ← r; sh ← worksheets ρ.1 !! name; Some (spec_max_length sh col).

(** ** The caller [main] *)

(** The literal [input_excel] of line 250. *)
Definition input_excel : str :=
  [26696; 20363; 65306; 67; 71; 48; 50; 39033; 30446; 27979; 35797; 29992; 20363;
   32; 46; 120; 108; 115; 120]%N.

(** The literal [output_excel] of line 251. *)
Definition output_excel : str := ascii_str "CG02_translated.xlsx".

(** [translate_excel_sheets] as its caller sees it.  [loaded] is what
    [openpyxl.load_workbook(input_file)] returns, [None] when it raises;
    [save_ok] tells whether [workbook.save(output_file)] returns.  [None] is
    an exception leaving the function. *)
Definition translate_excel_sheets_io (E : run_env) (delay : Qc)
    (loaded : option workbook) (save_ok : bool) : option (workbook * state) :=
  wb ← loaded;
  ρ ← translate_excel_sheets E delay wb;
  if save_ok then Some ρ else None.

(** How [main] ends: the call returned, with the workbook it saved, or the
    handler of lines 261-263 printed its two lines. *)
Inductive main_outcome :=
  | Completed (saved : workbook) (st : state)
  | ErrorReported.

(** Lines 247-263, [main], for a given translation service. *)
Definition main (translate : str → str → str → option str)
    (loaded : option workbook) (save_ok : bool) : main_outcome :=
  let E := {| translator_translate := translate;
              input_file := input_excel; output_file := output_excel;
              src_lang := ascii_str "zh-cn"; tgt_lang := ascii_str "en" |} in
  match translate_excel_sheets_io E one_tenth loaded save_ok with
  | Some ρ => Completed ρ.1 ρ.2
  | None => ErrorReported
  end.

(** ** Further vocabulary *)

Definition is_sleep (e : event) : bool :=
  match e with
  | Sleep _ => true
  | _ => false
  end.

(** Number of [time.sleep] calls in a trace. *)
Definition sleeps_made (tr : list event) : nat := length (filter (λ e, is_sleep e) tr).

Definition is_failure_report (e : event) : bool :=
  match e with
  | Print (MsgTranslateFailed _) => true
  | _ => false
  end.

(** Number of printed translation failures in a trace. *)
Definition failures_reported (tr : list event) : nat :=
  length (filter (λ e, is_failure_report e) tr).

(** A call to the service carries a trimmed text with a code point in
    U+4E00..U+9FFF and the locales of the run; other events are not
    constrained. *)
Definition call_well_formed (E : run_env) (e : event) : Prop :=
  match e with
  | Translate text src dest =>
      has_cjk text = true ∧ strip text = text ∧ src = src_lang E ∧ dest = tgt_lang E
  | _ => True
  end.

(** Every pause lasts [delay]. *)
Definition sleep_lasts (delay : Qc) (e : event) : Prop :=
  match e with
  | Sleep seconds => seconds = delay
  | _ => True
  end.

(** What the traversal of [translate_selected_sheets] leaves as the value of
    an eligible cell of the grid. *)
Definition selected_value (E : run_env) (v : cell_value) : cell_value :=
  match v with
  | VStr s =>
      if has_cjk s then
        match service E (strip s) with
        | Some translated => VStr (bilingual translated (strip s))
        | None => v
        end
      else v
  | _ => v
  end.

(** The traversal of [translate_selected_sheets] does not write to a cell
    with this value: it does not qualify, or the service fails on it. *)
Definition left_alone (E : run_env) (v : cell_value) : Prop :=
  qualifies v = false ∨ ∃ s, v = VStr s ∧ service E (strip s) = None.

(** The width pass of one sheet, with the index of that sheet. *)
Definition adjust_sheet (sh : sheet) : sheet :=
  adjust_columns (build_merged_cells (merged_ranges sh))
                 (build_merged_master_cells (merged_ranges sh)) sh.
(** * Properties *)

(** ** The region index *)

Lemma elem_of_range n a b : n ∈ range a b ↔ a ≤ n < b.
Proof. unfold range. rewrite elem_of_seq. lia. Qed.

Lemma elem_of_range_cells mr x : x ∈ range_cells mr ↔ in_range mr x.
Proof.
  unfold range_cells, in_range. destruct x as [r c]. simpl.
  rewrite list_elem_of_bind. split.
  - intros (r' & Hc & Hr). apply list_elem_of_bind in Hc as (c' & Hx & Hc).
    apply list_elem_of_singleton in Hx. injection Hx as -> ->.
    apply elem_of_range in Hr, Hc. lia.
  - intros [Hr Hc]. exists r. split; [|apply elem_of_range; lia].
    apply list_elem_of_bind. exists c. split; [by apply list_elem_of_singleton|].
    apply elem_of_range; lia.
Qed.

Lemma master_in_own_range mr x : in_range mr x → in_range mr (master_of_range mr).
Proof. unfold in_range, master_of_range. simpl. lia. Qed.

Lemma foldl_add_elem (l : list coord) (s : gset coord) x :
  x ∈ foldl (λ acc y, acc ∪ {[ y ]}) s l ↔ x ∈ s ∨ x ∈ l.
Proof.
  revert s. induction l as [|y l IH]; intros s; simpl.
  - rewrite elem_of_nil. tauto.
  - rewrite IH, elem_of_union, elem_of_singleton, elem_of_cons. tauto.
Qed.

Lemma foldl_insert_lookup (l : list coord) (m : gmap coord coord) v x :
  foldl (λ acc y, <[ y := v ]> acc) m l !! x
  = if decide (x ∈ l) then Some v else m !! x.
Proof.
  revert m. induction l as [|y l IH]; intros m; simpl.
  - destruct (decide (x ∈ [])) as [Hin|]; [by apply elem_of_nil in Hin|done].
  - rewrite IH. destruct (decide (x ∈ l)) as [Hl|Hl].
    + rewrite decide_True; [done|by right].
    + destruct (decide (x = y)) as [->|Hne].
      * rewrite lookup_insert_eq, decide_True; [done|by left].
      * rewrite lookup_insert_ne, decide_False; [done| |done].
        by intros [?|?]%elem_of_cons.
Qed.

Lemma build_merged_cells_snoc rs mr x :
  x ∈ build_merged_cells (rs ++ [mr]) ↔ x ∈ build_merged_cells rs ∨ in_range mr x.
Proof.
  unfold build_merged_cells. rewrite foldl_snoc, foldl_add_elem.
  by rewrite elem_of_range_cells.
Qed.

Lemma build_merged_master_cells_snoc rs mr x :
  build_merged_master_cells (rs ++ [mr]) !! x
  = if decide (in_range mr x) then Some (master_of_range mr)
    else build_merged_master_cells rs !! x.
Proof.
  unfold build_merged_master_cells. rewrite foldl_snoc. simpl.
  rewrite foldl_insert_lookup.
  repeat case_decide; try done; exfalso; by rewrite elem_of_range_cells in *.
Qed.

Lemma elem_of_build_merged_cells rs x :
  x ∈ build_merged_cells rs ↔ ∃ mr, mr ∈ rs ∧ in_range mr x.
Proof.
  induction rs as [|mr rs IH] using rev_ind.
  - unfold build_merged_cells. simpl. set_solver.
  - rewrite build_merged_cells_snoc, IH. split.
    + intros [(mr' & ? & ?)|?]; [exists mr'|exists mr]; set_solver.
    + intros (mr' & [?|Hin]%elem_of_app & ?); [left; eauto|].
      apply list_elem_of_singleton in Hin as ->. by right.
Qed.

(** The entry of a coordinate is the master of the last region, in input
    order, that contains it. *)
Lemma build_merged_master_cells_last before R later x :
  in_range R x →
  (∀ R', R' ∈ later → ¬ in_range R' x) →
  build_merged_master_cells (before ++ R :: later) !! x = Some (master_of_range R).
Proof.
  induction later as [|L later IH] using rev_ind; intros Hx Hlater.
  - rewrite build_merged_master_cells_snoc. by rewrite decide_True.
  - replace (before ++ R :: later ++ [L]) with ((before ++ R :: later) ++ [L])
      by (by rewrite <- app_assoc).
    rewrite build_merged_master_cells_snoc.
    rewrite decide_False by (apply Hlater; set_solver).
    apply IH; [done|]. intros R' ?. apply Hlater. set_solver.
Qed.

Lemma build_merged_master_cells_Some rs x m :
  build_merged_master_cells rs !! x = Some m →
  ∃ before R later, rs = before ++ R :: later ∧ in_range R x ∧
    m = master_of_range R ∧ ∀ R', R' ∈ later → ¬ in_range R' x.
Proof.
  induction rs as [|mr rs IH] using rev_ind.
  - unfold build_merged_master_cells. simpl. by rewrite lookup_empty.
  - rewrite build_merged_master_cells_snoc. case_decide as Hin.
    + intros [= <-]. exists rs, mr, []. split_and!; [done..|]. set_solver.
    + intros (before & R & later & -> & ? & ? & Hl)%IH.
      exists before, R, (later ++ [mr]). split_and!; [|done..|].
      * by rewrite <- app_assoc.
      * intros R' [?|Hin']%elem_of_app; [by apply Hl|].
        by apply list_elem_of_singleton in Hin' as ->.
Qed.

Lemma build_merged_master_cells_is_Some rs x :
  is_Some (build_merged_master_cells rs !! x) ↔ ∃ mr, mr ∈ rs ∧ in_range mr x.
Proof.
  split.
  - intros [m (before & R & later & -> & ? & _)%build_merged_master_cells_Some].
    exists R. set_solver.
  - intros (mr & (before & later & ->)%list_elem_of_split & Hx).
    induction later as [|L later IH] using rev_ind.
    + rewrite build_merged_master_cells_snoc, decide_True by done. eauto.
    + replace (before ++ mr :: later ++ [L]) with ((before ++ mr :: later) ++ [L])
        by (by rewrite <- app_assoc).
      rewrite build_merged_master_cells_snoc. case_decide; eauto.
Qed.

Lemma pairwise_disjoint_unique before R later R' x :
  pairwise_disjoint (before ++ R :: later) →
  R' ∈ before ++ R :: later → in_range R x → in_range R' x → R' = R.
Proof.
  intros Hdis (j & Hj)%list_elem_of_lookup HR HR'.
  destruct (decide (j = length before)) as [->|Hne].
  - rewrite list_lookup_middle in Hj by done. congruence.
  - exfalso. eapply (Hdis j (length before) R' R x); eauto.
    by rewrite list_lookup_middle.
Qed.

Lemma master_of_covered (rs : list merged_range) (x : coord) :
  pairwise_disjoint rs →
  x ∈ build_merged_cells rs →
  ∃ R, R ∈ rs ∧ in_range R x
    ∧ (∀ R', R' ∈ rs → in_range R' x → R' = R)
    ∧ build_merged_master_cells rs !! x = Some (min_row R, min_col R)
    ∧ build_merged_master_cells rs !! (min_row R, min_col R)
      = Some (min_row R, min_col R).
Proof.
  intros Hdis (R0 & HR0 & Hx0)%elem_of_build_merged_cells.
  assert (is_Some (build_merged_master_cells rs !! x)) as [m Hm].
  { apply build_merged_master_cells_is_Some. eauto. }
  destruct (build_merged_master_cells_Some _ _ _ Hm)
    as (before & R & later & -> & Hx & -> & Hlater).
  exists R. split_and!; [set_solver|done| |done|].
  - intros R' ? ?. by eapply pairwise_disjoint_unique.
  - apply build_merged_master_cells_last; [by eapply master_in_own_range|].
    intros R' HR' Hin.
    assert (R' = R) as ->.
    { eapply pairwise_disjoint_unique; [done| |by eapply master_in_own_range|done].
      set_solver. }
    by eapply Hlater.
Qed.

(** C4: for pairwise non-overlapping merged regions, the coverage index sends
    every covered coordinate to the top-left coordinate of the region that
    contains it, and that master coordinate is its own master, so looking a
    master up again yields the same coordinate. *)
Theorem region_index_master_idempotent (rs : list merged_range) (x : coord) :
  pairwise_disjoint rs →
  x ∈ build_merged_cells rs →
  ∃ R, R ∈ rs ∧ in_range R x
    ∧ (∀ R', R' ∈ rs → in_range R' x → R' = R)
    ∧ build_merged_master_cells rs !! x = Some (min_row R, min_col R)
    ∧ build_merged_master_cells rs !! (min_row R, min_col R)
      = Some (min_row R, min_col R).
Proof. apply master_of_covered. Qed.

Lemma sample_regions_disjoint : pairwise_disjoint sample_regions.
Proof.
  intros i j R R' [r c] Hij Hi Hj [Hr Hc] [Hr' Hc']. simpl in *.
  destruct i as [|[|[|i]]], j as [|[|[|j]]]; simpl in *; simplify_eq; simpl in *; lia.
Qed.

Lemma region_index_master_idempotent_witness :
  ∃ R, R ∈ sample_regions ∧ in_range R (2, 2)
    ∧ (∀ R', R' ∈ sample_regions → in_range R' (2, 2) → R' = R)
    ∧ build_merged_master_cells sample_regions !! (2, 2) = Some (min_row R, min_col R)
    ∧ build_merged_master_cells sample_regions !! (min_row R, min_col R)
      = Some (min_row R, min_col R).
Proof.
  apply (region_index_master_idempotent sample_regions (2, 2)).
  - exact sample_regions_disjoint.
  - apply elem_of_build_merged_cells. exists (MergedRange 1 1 2 2).
    split; [set_solver|]. unfold in_range. simpl. lia.
Defined.

(** C5: when regions overlap, a coordinate they share is mapped to the
    top-left coordinate of the region that comes last in input order among
    those containing it: the later region's entry replaces the earlier one's
    on the shared coordinates, and only there. *)
Theorem region_index_later_region_wins
    (before later : list merged_range) (R : merged_range) (x : coord) :
  in_range R x →
  (∀ R', R' ∈ later → ¬ in_range R' x) →
  build_merged_master_cells (before ++ R :: later) !! x
  = Some (min_row R, min_col R).
Proof. apply build_merged_master_cells_last. Qed.

Lemma region_index_later_region_wins_witness :
  build_merged_master_cells
    ([MergedRange 1 1 2 2] ++ MergedRange 2 2 3 3 :: []) !! (2, 2) = Some (2, 2).
Proof.
  apply (region_index_later_region_wins [MergedRange 1 1 2 2] [] (MergedRange 2 2 3 3) (2, 2)).
  - unfold in_range. simpl. lia.
  - intros R' HR'. by apply elem_of_nil in HR'.
Defined.

(** C10: the set of covered coordinates built by the first pass is the key
    set of the coordinate-to-master dictionary built by the second pass, so
    a coordinate found in the covered set always has a master entry, and the
    traversal skips a coordinate only through the test on the master's row
    and column, never through the fallback branch for a covered coordinate
    without an entry. *)
Theorem covered_set_is_master_key_set (rs : list merged_range) :
  dom (build_merged_master_cells rs) = build_merged_cells rs
  ∧ (∀ x, x ∈ build_merged_cells rs →
       ∃ m, build_merged_master_cells rs !! x = Some m)
  ∧ (∀ x, resolve_cell (build_merged_cells rs) (build_merged_master_cells rs) x = None →
       ∃ m, build_merged_master_cells rs !! x = Some m ∧ (x.1 ≠ m.1 ∨ x.2 ≠ m.2)).
Proof.
  assert (∀ x, x ∈ dom (build_merged_master_cells rs) ↔ x ∈ build_merged_cells rs) as H.
  { intros x. rewrite elem_of_dom, build_merged_master_cells_is_Some.
    by rewrite elem_of_build_merged_cells. }
  split_and!; [by apply set_eq| |].
  - intros x Hx. apply H, elem_of_dom in Hx. exact Hx.
  - intros x. unfold resolve_cell. case_decide as Hx; [|done].
    apply H, elem_of_dom in Hx as [m Hm]. rewrite Hm.
    case_decide; [eauto|done].
Qed.

(** ** Cells and sheets *)

Lemma sheet_cell_set_cell sh x c y :
  sheet_cell (set_cell sh x c) y = if decide (x = y) then c else sheet_cell sh y.
Proof.
  unfold sheet_cell, set_cell. simpl. rewrite lookup_insert. by case_decide.
Qed.

Lemma sheet_cell_set_value sh x v y :
  sheet_cell (set_value sh x v) y
  = if decide (x = y) then {| value := v; alignment := alignment (sheet_cell sh x) |}
    else sheet_cell sh y.
Proof. apply sheet_cell_set_cell. Qed.

Lemma sheet_cell_set_alignment sh x a y :
  sheet_cell (set_alignment sh x a) y
  = if decide (x = y) then {| value := value (sheet_cell sh x); alignment := a |}
    else sheet_cell sh y.
Proof. apply sheet_cell_set_cell. Qed.

Lemma sheet_cell_annotate sh x v a y :
  sheet_cell (set_alignment (set_value sh x v) x a) y
  = if decide (x = y) then {| value := v; alignment := a |} else sheet_cell sh y.
Proof.
  rewrite sheet_cell_set_alignment, !sheet_cell_set_value.
  destruct (decide (x = y)); [|done]. by rewrite decide_True.
Qed.

Lemma same_shape_refl sh : same_shape sh sh.
Proof. by repeat split. Qed.

Lemma same_shape_trans sh1 sh2 sh3 :
  same_shape sh1 sh2 → same_shape sh2 sh3 → same_shape sh1 sh3.
Proof. unfold same_shape. intros (-> & -> & ->) (-> & -> & ->). done. Qed.

Lemma same_shape_set_cell sh x c : same_shape sh (set_cell sh x c).
Proof. by repeat split. Qed.

Lemma same_shape_set_width sh col w : same_shape sh (set_width sh col w).
Proof. by repeat split. Qed.

Lemma same_shape_in_grid sh sh' x : same_shape sh sh' → in_grid sh' x ↔ in_grid sh x.
Proof. unfold in_grid. by intros (-> & -> & _). Qed.

Lemma same_shape_eligible_in sh sh' x :
  same_shape sh sh' → eligible_in sh' x ↔ eligible_in sh x.
Proof. unfold eligible_in. by intros (_ & _ & ->). Qed.

Lemma same_shape_grid_coords sh sh' : same_shape sh sh' → grid_coords sh' = grid_coords sh.
Proof. unfold grid_coords. by intros (-> & -> & _). Qed.

Lemma elem_of_grid_coords sh x : x ∈ grid_coords sh ↔ in_grid sh x.
Proof.
  unfold grid_coords, in_grid. destruct x as [r c]. simpl.
  rewrite list_elem_of_bind. split.
  - intros (r' & Hc & Hr). apply list_elem_of_bind in Hc as (c' & Hx & Hc).
    apply list_elem_of_singleton in Hx. injection Hx as -> ->.
    apply elem_of_range in Hr, Hc. lia.
  - intros [Hr Hc]. exists r. split; [|apply elem_of_range; lia].
    apply list_elem_of_bind. exists c. split; [by apply list_elem_of_singleton|].
    apply elem_of_range; lia.
Qed.

Lemma NoDup_range a b : NoDup (range a b).
Proof. apply NoDup_seq. Qed.

Lemma NoDup_grid_coords sh : NoDup (grid_coords sh).
Proof.
  unfold grid_coords. apply NoDup_bind.
  - intros r r' x _ _ (c & Hx & _)%list_elem_of_bind (c' & Hx' & _)%list_elem_of_bind.
    apply list_elem_of_singleton in Hx, Hx'. congruence.
  - intros r _. apply NoDup_bind.
    + intros c c' x _ _ Hx%list_elem_of_singleton Hx'%list_elem_of_singleton. congruence.
    + intros c _. apply NoDup_singleton.
    + apply NoDup_range.
  - apply NoDup_range.
Qed.

(** ** Text *)

Lemma has_cjk_truthy s : has_cjk s = true → truthy (VStr s) = true.
Proof. destruct s; [done|]. intros _. done. Qed.

Lemma qualifies_VStr v : qualifies v = true → ∃ s, v = VStr s ∧ has_cjk s = true.
Proof. destruct v; try done. eauto. Qed.

(** ** Resolution of a coordinate *)

Lemma resolve_cell_eligible mc mm x :
  resolve_cell mc mm x = if decide (eligible mc mm x) then Some x else None.
Proof.
  unfold resolve_cell. destruct x as [r c].
  destruct (decide ((r, c) ∈ mc)) as [Hin|Hout].
  - destruct (mm !! (r, c)) as [[mr mcol]|] eqn:Hm; simpl.
    + destruct (decide (r ≠ mr ∨ c ≠ mcol)) as [Hne|Heq].
      * rewrite decide_False; [done|]. unfold eligible. rewrite Hm.
        intros [?|[= <- <-]]; [done|]. by destruct Hne.
      * assert (r = mr ∧ c = mcol) as [<- <-] by (split; apply dec_stable; tauto).
        rewrite decide_True; [done|by right].
    + rewrite decide_False; [done|]. unfold eligible. rewrite Hm. by intros [?|?].
  - rewrite decide_True; [done|by left].
Qed.

Lemma layout_skips_eligible rs x :
  layout_skips (build_merged_cells rs) (build_merged_master_cells rs) x
  = negb (bool_decide (eligible (build_merged_cells rs) (build_merged_master_cells rs) x)).
Proof.
  unfold layout_skips. destruct x as [r c].
  destruct (decide ((r, c) ∈ build_merged_cells rs)) as [Hin|Hout].
  - assert (is_Some (build_merged_master_cells rs !! (r, c))) as [[mr mcol] Hm].
    { apply build_merged_master_cells_is_Some. by apply elem_of_build_merged_cells. }
    rewrite Hm. simpl.
    destruct (decide (mr ≠ r ∨ mcol ≠ c)) as [Hne|Heq].
    + rewrite bool_decide_eq_true_2 by done. rewrite bool_decide_eq_false_2; [done|].
      unfold eligible. rewrite Hm. intros [?|[= <- <-]]; [done|]. by destruct Hne.
    + assert (mr = r ∧ mcol = c) as [<- <-] by (split; apply dec_stable; tauto).
      rewrite bool_decide_eq_false_2 by done. rewrite bool_decide_eq_true_2; [done|by right].
  - rewrite bool_decide_eq_true_2; [done|by left].
Qed.

(** A covered coordinate that is not the top-left corner of a region
    containing it is not eligible. *)
Lemma not_master_not_eligible rs R x :
  R ∈ rs → in_range R x →
  (∀ R', R' ∈ rs → in_range R' x → x ≠ (min_row R', min_col R')) →
  ¬ eligible (build_merged_cells rs) (build_merged_master_cells rs) x.
Proof.
  intros HR Hx Hnm [Hout|Hself].
  - apply Hout, elem_of_build_merged_cells. eauto.
  - apply build_merged_master_cells_Some in Hself
      as (before & R0 & later & -> & Hx0 & Hm & _).
    apply (Hnm R0); [|done..]. apply elem_of_app. right. by left.
Qed.

(** With regions that do not overlap, the coordinates of a region other
    than its top-left corner are such coordinates. *)
Lemma non_overlapping_non_master rs R x :
  pairwise_disjoint rs → R ∈ rs → in_range R x → x ≠ (min_row R, min_col R) →
  ∀ R', R' ∈ rs → in_range R' x → x ≠ (min_row R', min_col R').
Proof.
  intros Hdis HR Hx Hne R' HR' Hx'.
  destruct (master_of_covered rs x Hdis) as (R0 & _ & _ & Huniq & _).
  { apply elem_of_build_merged_cells. eauto. }
  by rewrite (Huniq R' HR' Hx'), <- (Huniq R HR Hx).
Qed.

Example strip_spaced : strip cjk_test_spaced = cjk_test.
Proof. reflexivity. Qed.

Example strip_inner_space :
  strip (ascii_str "  a b" ++ [newline; 12288%N]) = ascii_str "a b".
Proof. reflexivity. Qed.

Example split_lines_trailing :
  split_lines (ascii_str "ab" ++ [newline] ++ ascii_str "c" ++ [newline])
  = [ascii_str "ab"; ascii_str "c"; []].
Proof. reflexivity. Qed.

Example max_line_length_bilingual :
  max_line_length (ascii_str "Test" ++ [newline] ++ cjk_test) = 4%nat.
Proof. reflexivity. Qed.

(** ** Traces *)

Lemma translate_calls_app text tr es :
  translate_calls text (tr ++ es) = (translate_calls text tr + translate_calls text es)%nat.
Proof. unfold translate_calls. by rewrite filter_app, length_app. Qed.

Lemma calls_made_app tr es : calls_made (tr ++ es) = (calls_made tr + calls_made es)%nat.
Proof. unfold calls_made. by rewrite filter_app, length_app. Qed.

Lemma translate_calls_single_eq text src dest :
  translate_calls text [Translate text src dest] = 1%nat.
Proof.
  unfold translate_calls. rewrite filter_cons_True; [done|].
  simpl. by rewrite bool_decide_eq_true_2.
Qed.

Lemma translate_calls_single_ne text text' src dest :
  text' ≠ text → translate_calls text [Translate text' src dest] = 0%nat.
Proof.
  intros Hne. unfold translate_calls. rewrite filter_cons_False; [done|].
  simpl. by intros ?%bool_decide_unpack.
Qed.

Lemma translate_calls_no_call text e :
  is_translate e = false → translate_calls text [e] = 0%nat.
Proof.
  intros He. unfold translate_calls. rewrite filter_cons_False; [done|].
  destruct e; simpl in *; [done|tauto..].
Qed.

(** ** The nested loops as one loop over the grid *)

Lemma foldl_row {S : Type} (f : coord → S → S) (row : nat) (cols : list nat) (σ : S) :
  foldl (λ σ col, f (row, col) σ) σ cols
  = foldl (λ σ x, f x σ) σ (col ← cols; [(row, col)]).
Proof.
  revert σ. induction cols as [|c cols IH]; intros σ; [done|].
  simpl. by rewrite IH.
Qed.

Lemma foldl_preserves {S A T : Type} (f : A → S → S) (g : S → T) (l : list A) (σ : S) :
  (∀ x σ, g (f x σ) = g σ) → g (foldl (λ σ x, f x σ) σ l) = g σ.
Proof.
  intros Hg. revert σ. induction l as [|x l IH]; intros σ; [done|].
  simpl. by rewrite IH, Hg.
Qed.

Lemma nested_foldl_flat {S : Type} (f : coord → S → S) (g : S → nat)
    (rows : list nat) (σ : S) :
  (∀ x σ, g (f x σ) = g σ) →
  foldl (λ σ row, foldl (λ σ col, f (row, col) σ) σ (range 1 (g σ + 1))) σ rows
  = foldl (λ σ x, f x σ) σ (row ← rows; col ← range 1 (g σ + 1); [(row, col)]).
Proof.
  intros Hg. revert σ. induction rows as [|r rows IH]; intros σ; [done|].
  simpl. rewrite foldl_app, <- foldl_row.
  set (σ1 := foldl (λ σ col, f (r, col) σ) σ (range 1 (g σ + 1))).
  assert (g σ1 = g σ) as Hσ1.
  { unfold σ1. rewrite foldl_row. by apply foldl_preserves. }
  rewrite IH. by rewrite Hσ1.
Qed.

(** ** The cached translation *)

Arguments translate_text : simpl never.

Lemma sleep_returns_nonneg delay : sleep_returns delay = true ↔ (0 ≤ delay)%Qc.
Proof. unfold sleep_returns. by rewrite bool_decide_eq_true. Qed.

Lemma translate_text_qualifying E delay s st :
  has_cjk s = true →
  translate_text E delay (VStr s) st
  = match translation_cache st !! strip s with
    | Some cached => (VStr cached, st)
    | None =>
        match service E (strip s) with
        | Some translated =>
            if sleep_returns delay then
              (VStr (bilingual translated (strip s)),
               emit [Sleep delay]
                 (cache_store (strip s) (bilingual translated (strip s))
                    (emit [Translate (strip s) (src_lang E) (tgt_lang E)] st)))
            else
              (VStr (strip s),
               emit [Print (MsgTranslateFailed (strip s))]
                 (cache_store (strip s) (bilingual translated (strip s))
                    (emit [Translate (strip s) (src_lang E) (tgt_lang E)] st)))
        | None =>
            (VStr (strip s),
             emit [Print (MsgTranslateFailed (strip s))]
               (emit [Translate (strip s) (src_lang E) (tgt_lang E)] st))
        end
    end.
Proof.
  intros Hs. unfold translate_text, service.
  rewrite (has_cjk_truthy s Hs). simpl.
  destruct (translation_cache st !! strip s); [done|].
  destruct (translator_translate E (strip s) (src_lang E) (tgt_lang E)); [|done].
  by destruct (sleep_returns delay).
Qed.

Lemma translate_text_spec E delay s st :
  has_cjk s = true → run_inv E st →
  ((translate_text E delay (VStr s) st).1 = annotated_value E (VStr s)
   ∨ (sleep_returns delay = false
      ∧ (translate_text E delay (VStr s) st).1 = VStr (strip s)))
  ∧ run_inv E (translate_text E delay (VStr s) st).2
  ∧ translation_cache st ⊆ translation_cache (translate_text E delay (VStr s) st).2
  ∧ (is_Some (service E (strip s)) →
     is_Some (translation_cache (translate_text E delay (VStr s) st).2 !! strip s))
  ∧ (calls_made (trace (translate_text E delay (VStr s) st).2)
     ≤ calls_made (trace st) + 1)%nat.
Proof.
  intros Hs [Hcache Hcalls]. rewrite (translate_text_qualifying E delay s st Hs).
  unfold annotated_value. rewrite Hs.
  destruct (translation_cache st !! strip s) as [cached|] eqn:Hlook; simpl.
  - destruct (Hcache _ _ Hlook) as (translated & -> & ->).
    split_and!; [by left|by split|done|by rewrite Hlook|lia].
  - destruct (service E (strip s)) as [translated|] eqn:Hsvc; simpl.
    + assert (∀ e, is_translate e = false →
                run_inv E (emit [e]
                  (cache_store (strip s) (bilingual translated (strip s))
                     (emit [Translate (strip s) (src_lang E) (tgt_lang E)] st)))) as Hinv.
      { intros e He. split.
        - intros text result. simpl. rewrite lookup_insert.
          case_decide as Heq; [|by apply Hcache].
          intros [= <-]. subst text. eauto.
        - intros text Htext. simpl.
          rewrite !translate_calls_app, (Hcalls text Htext), lookup_insert.
          rewrite (translate_calls_no_call text e) by done.
          case_decide as Heq.
          + subst text. rewrite Hlook, translate_calls_single_eq. done.
          + rewrite translate_calls_single_ne by done. lia. }
      destruct (sleep_returns delay) eqn:Hsleep; simpl.
      * split_and!; [by left|by apply Hinv|by apply insert_subseteq
                    |by rewrite lookup_insert_eq|].
        rewrite !calls_made_app. simpl. unfold calls_made at 2 3. simpl. lia.
      * split_and!; [by right|by apply Hinv|by apply insert_subseteq
                    |by rewrite lookup_insert_eq|].
        rewrite !calls_made_app. simpl. unfold calls_made at 2 3. simpl. lia.
    + split_and!; [by left| |done|by intros [? ?]|].
      * split; [done|].
        intros text Htext. simpl.
        rewrite !translate_calls_app, (Hcalls text Htext).
        rewrite (translate_calls_no_call text (Print (MsgTranslateFailed (strip s)))) by done.
        rewrite translate_calls_single_ne; [lia|].
        intros <-. rewrite Hsvc in Htext. by destruct Htext.
      * rewrite !calls_made_app. unfold calls_made at 2 3. simpl. lia.
Qed.

(** ** One step of the traversal of [translate_excel_sheets] *)

Lemma walk_cell_cases E delay mc mm x σ :
  (walk_cell E delay mc mm x σ = σ
   ∧ (¬ eligible mc mm x ∨ qualifies (value (sheet_cell σ.1 x)) = false))
  ∨ ∃ s, eligible mc mm x ∧ value (sheet_cell σ.1 x) = VStr s ∧ has_cjk s = true
      ∧ walk_cell E delay mc mm x σ
        = (set_alignment (set_value σ.1 x (translate_text E delay (VStr s) σ.2).1) x wrap_top,
           (translate_text E delay (VStr s) σ.2).2).
Proof.
  unfold walk_cell. rewrite resolve_cell_eligible.
  destruct (decide (eligible mc mm x)) as [Hel|Hel]; [|left; split; [done|by left]].
  destruct (value (sheet_cell σ.1 x)) as [|s| | |] eqn:Hv;
    try (left; split; [done|by right]).
  destruct (has_cjk s) eqn:Hs.
  - right. exists s. rewrite (has_cjk_truthy s Hs).
    by destruct (translate_text E delay (VStr s) σ.2).
  - left. rewrite andb_false_r. split; [done|by right].
Qed.

Lemma walk_cell_not_eligible E delay mc mm x σ :
  ¬ eligible mc mm x → walk_cell E delay mc mm x σ = σ.
Proof.
  intros Hel. unfold walk_cell. rewrite resolve_cell_eligible. by rewrite decide_False.
Qed.

Lemma walk_cell_other E delay mc mm x σ y :
  y ≠ x → sheet_cell (walk_cell E delay mc mm x σ).1 y = sheet_cell σ.1 y.
Proof.
  intros Hne. destruct (walk_cell_cases E delay mc mm x σ) as [[-> _]|(s & _ & _ & _ & ->)];
    [done|]. simpl. rewrite sheet_cell_annotate. by rewrite decide_False.
Qed.

Lemma walk_cell_frame E delay mc mm x σ :
  same_shape σ.1 (walk_cell E delay mc mm x σ).1
  ∧ column_width (walk_cell E delay mc mm x σ).1 = column_width σ.1.
Proof.
  destruct (walk_cell_cases E delay mc mm x σ) as [[-> _]|(s & _ & _ & _ & ->)];
    [split; [apply same_shape_refl|done]|]. split; [|done]. by repeat split.
Qed.

Lemma walk_cell_at E delay mc mm x σ :
  run_inv E σ.2 → eligible mc mm x →
  cell_written E delay (sheet_cell σ.1 x) (sheet_cell (walk_cell E delay mc mm x σ).1 x).
Proof.
  intros Hinv Hel. unfold cell_written.
  destruct (walk_cell_cases E delay mc mm x σ)
    as [[-> [?| ->]]|(s & _ & Hv & Hs & ->)]; [done..|].
  simpl. rewrite sheet_cell_annotate, decide_True by done.
  rewrite Hv. simpl. rewrite Hs. split; [done|].
  destruct (translate_text_spec E delay s σ.2 Hs Hinv) as ([->|[? ->]] & _); [|by right].
  left. simpl. by rewrite Hs.
Qed.

Lemma walk_cell_state E delay mc mm x σ :
  run_inv E σ.2 →
  run_inv E (walk_cell E delay mc mm x σ).2
  ∧ translation_cache σ.2 ⊆ translation_cache (walk_cell E delay mc mm x σ).2
  ∧ (calls_made (trace (walk_cell E delay mc mm x σ).2) ≤ calls_made (trace σ.2) + 1)%nat.
Proof.
  intros Hinv.
  destruct (walk_cell_cases E delay mc mm x σ) as [[-> _]|(s & _ & _ & Hs & ->)].
  - split_and!; [done..|lia].
  - simpl. destruct (translate_text_spec E delay s σ.2 Hs Hinv) as (_ & ? & ? & _ & ?).
    done.
Qed.

Lemma walk_cell_caches E delay mc mm x σ s :
  run_inv E σ.2 → eligible mc mm x →
  value (sheet_cell σ.1 x) = VStr s → has_cjk s = true → is_Some (service E (strip s)) →
  is_Some (translation_cache (walk_cell E delay mc mm x σ).2 !! strip s).
Proof.
  intros Hinv Hel Hv Hs Hsvc.
  destruct (walk_cell_cases E delay mc mm x σ)
    as [[_ [?|Hq]]|(s' & _ & Hv' & Hs' & ->)].
  - done.
  - rewrite Hv in Hq. simpl in Hq. congruence.
  - rewrite Hv in Hv'. injection Hv' as <-. simpl.
    by destruct (translate_text_spec E delay s σ.2 Hs Hinv) as (_ & _ & _ & Hc & _); auto.
Qed.

(** ** The traversal of [translate_excel_sheets] over a list of coordinates *)

Lemma walk_sheet_flat E delay mc mm σ :
  walk_sheet E delay mc mm σ
  = foldl (λ σ x, walk_cell E delay mc mm x σ) σ (grid_coords σ.1).
Proof.
  unfold walk_sheet, grid_coords.
  apply (nested_foldl_flat (walk_cell E delay mc mm) (λ σ, sheet_max_column σ.1)).
  intros x σ'. by destruct (walk_cell_frame E delay mc mm x σ') as [(_ & -> & _) _].
Qed.

Lemma walk_list_spec E delay mc mm (l : list coord) sh st :
  NoDup l → run_inv E st →
  let σ' := foldl (λ σ x, walk_cell E delay mc mm x σ) (sh, st) l in
  run_inv E σ'.2
  ∧ translation_cache st ⊆ translation_cache σ'.2
  ∧ same_shape sh σ'.1
  ∧ column_width σ'.1 = column_width sh
  ∧ (∀ y, (y ∈ l ∧ eligible mc mm y →
           cell_written E delay (sheet_cell sh y) (sheet_cell σ'.1 y))
          ∧ (¬ (y ∈ l ∧ eligible mc mm y) → sheet_cell σ'.1 y = sheet_cell sh y))
  ∧ (∀ y s, y ∈ l → eligible mc mm y → value (sheet_cell sh y) = VStr s →
            has_cjk s = true → is_Some (service E (strip s)) →
            is_Some (translation_cache σ'.2 !! strip s)).
Proof.
  intros Hnd Hinv. cbv zeta. induction l as [|x l IH] using rev_ind.
  - split_and!; [done..|apply same_shape_refl|done| |].
    + intros y. split; [by intros [[]%elem_of_nil _]|done].
    + by intros y s []%elem_of_nil.
  - apply NoDup_app in Hnd as (Hnd & Hx & _).
    destruct (IH Hnd) as (Hinv' & Hsub & Hshape & Hw & Hcells & Hcached). clear IH.
    rewrite foldl_snoc.
    set (σ1 := foldl (λ σ x, walk_cell E delay mc mm x σ) (sh, st) l) in *.
    destruct (walk_cell_state E delay mc mm x σ1 Hinv') as (Hinv'' & Hsub' & _).
    destruct (walk_cell_frame E delay mc mm x σ1) as [Hshape' Hw'].
    assert (x ∉ l) as Hxl by (intros ?; eapply Hx; [done|by left]).
    assert (sheet_cell σ1.1 x = sheet_cell sh x) as Hx1.
    { apply Hcells. by intros [? _]. }
    split_and!; [done|by etrans|by eapply same_shape_trans|congruence| |].
    + intros y. destruct (decide (y = x)) as [->|Hne].
      * split.
        -- intros [_ Hel]. rewrite <- Hx1. by apply walk_cell_at.
        -- intros Hn. rewrite walk_cell_not_eligible, Hx1; [done|].
           intros ?. apply Hn. split; [|done]. apply elem_of_app. right. by left.
      * rewrite walk_cell_other by done. destruct (Hcells y) as [Hin Hout]. split.
        -- intros [[?|Hy]%elem_of_app ?]; [by apply Hin|].
           by apply list_elem_of_singleton in Hy.
        -- intros Hn. apply Hout. intros [? ?]. apply Hn. split; [|done].
           apply elem_of_app. by left.
    + intros y s [Hin|Hin]%elem_of_app Hel Hv Hs Hsvc.
      * destruct (Hcached y s Hin Hel Hv Hs Hsvc) as [r Hr].
        exists r. by eapply lookup_weaken.
      * apply list_elem_of_singleton in Hin as ->.
        apply walk_cell_caches; [done..|by rewrite Hx1|done|done].
Qed.

(** ** The width pass *)

Lemma max_line_length_nil : max_line_length [] = 0%nat.
Proof. done. Qed.

Lemma running_max (f : nat → option nat) (g : nat → nat → nat) (rows : list nat) (m : nat) :
  (∀ m row, g m row = Nat.max m (default 0%nat (f row))) →
  foldl g m rows = Nat.max m (max_list (omap f rows)).
Proof.
  intros Hg. revert m. induction rows as [|row rows IH]; intros m.
  - simpl. lia.
  - simpl. rewrite IH, Hg. fold (omap f rows).
    destruct (f row) as [n|]; simpl; lia.
Qed.

(** The running maximum of the code is the maximum the specification
    describes. *)
Lemma column_max_length_spec sh col :
  column_max_length (build_merged_cells (merged_ranges sh))
                    (build_merged_master_cells (merged_ranges sh)) sh col
  = spec_max_length sh col.
Proof.
  unfold column_max_length, spec_max_length.
  rewrite <- (Nat.max_0_l (max_list _)).
  apply running_max. intros m row.
  rewrite layout_skips_eligible. fold (eligible_in sh (row, col)).
  destruct (decide (eligible_in sh (row, col))) as [Hel|Hel].
  - rewrite bool_decide_eq_true_2 by done.
    destruct (value (sheet_cell sh (row, col))) as [|s|n|b|t].
    + simpl. lia.
    + destruct s as [|c s].
      * simpl. rewrite max_line_length_nil. lia.
      * change (truthy (VStr (c :: s))) with true. cbn [negb default]. unfold id.
        case_bool_decide; lia.
    + destruct (truthy (VInt n)); simpl; lia.
    + destruct (truthy (VBool b)); simpl; lia.
    + destruct (truthy (VOther t)); simpl; lia.
  - rewrite bool_decide_eq_false_2 by done.
    destruct (truthy _); simpl; lia.
Qed.

Lemma column_max_length_cells mc mm sh sh' col :
  cells sh' = cells sh → sheet_max_row sh' = sheet_max_row sh →
  column_max_length mc mm sh' col = column_max_length mc mm sh col.
Proof.
  intros Hc Hr. unfold column_max_length, sheet_cell. by rewrite Hc, Hr.
Qed.

Lemma adjust_columns_list mc mm (cols : list nat) sh :
  NoDup cols →
  let sh' :=
    foldl (λ sh col_idx,
             let max_length := column_max_length mc mm sh col_idx in
             if bool_decide (0 < max_length)%nat then
               let adjusted_width := Nat.min (max_length + 2) 50 in
               set_width sh col_idx (Qc_of_Z (Z.of_nat adjusted_width))
             else sh) sh cols in
  same_shape sh sh' ∧ cells sh' = cells sh
  ∧ ∀ col, column_width sh' !! col
           = if decide (col ∈ cols ∧ (0 < column_max_length mc mm sh col)%nat)
             then Some (Qc_of_Z (Z.of_nat (Nat.min (column_max_length mc mm sh col + 2) 50)))
             else column_width sh !! col.
Proof.
  intros Hnd. cbv zeta. induction cols as [|c cols IH] using rev_ind.
  - split_and!; [apply same_shape_refl|done|]. intros col.
    rewrite decide_False; [done|]. intros [[]%elem_of_nil _].
  - apply NoDup_app in Hnd as (Hnd & Hc & _).
    destruct (IH Hnd) as (Hshape & Hcells & Hw). clear IH.
    rewrite foldl_snoc. cbv zeta.
    match goal with |- context [column_max_length mc mm ?sh1 c] =>
      set (sh' := sh1) in * end.
    assert (column_max_length mc mm sh' c = column_max_length mc mm sh c) as ->.
    { apply column_max_length_cells; [done|apply Hshape]. }
    assert (c ∉ cols) as Hccols by (intros ?; eapply Hc; [done|by left]).
    case_bool_decide as Hpos.
    + split_and!; [by eapply same_shape_trans, same_shape_set_width|done|].
      intros col. simpl. rewrite lookup_insert. case_decide as Heq.
      * subst col. rewrite decide_True; [done|]. split; [|done].
        apply elem_of_app. right. by left.
      * rewrite Hw. destruct (decide (col ∈ cols ∧ _)) as [[? ?]|Hn].
        -- rewrite decide_True; [done|]. split; [|done]. apply elem_of_app. by left.
        -- rewrite decide_False; [done|]. intros [[?|Hin]%elem_of_app ?]; [by apply Hn|].
           apply list_elem_of_singleton in Hin. congruence.
    + split_and!; [done..|]. intros col. rewrite Hw.
      destruct (decide (col ∈ cols ∧ _)) as [[? ?]|Hn].
      * rewrite decide_True; [done|]. split; [|done]. apply elem_of_app. by left.
      * rewrite decide_False; [done|]. intros [[?|Hin]%elem_of_app ?]; [by apply Hn|].
        apply list_elem_of_singleton in Hin. subst col. lia.
Qed.

Lemma spec_max_length_cells sh sh' col :
  same_shape sh sh' → (∀ x, sheet_cell sh' x = sheet_cell sh x) →
  spec_max_length sh' col = spec_max_length sh col.
Proof.
  intros Hshape Hcells. unfold spec_max_length.
  rewrite (proj1 Hshape). f_equal.
  apply list_omap_ext, Forall_Forall2_diag, Forall_forall.
  intros row _. rewrite Hcells. by apply decide_ext, same_shape_eligible_in.
Qed.

Lemma adjust_columns_spec sh :
  let sh' := adjust_columns (build_merged_cells (merged_ranges sh))
                            (build_merged_master_cells (merged_ranges sh)) sh in
  same_shape sh sh' ∧ cells sh' = cells sh ∧ widths_adjusted sh sh'.
Proof.
  cbv zeta. unfold adjust_columns.
  destruct (adjust_columns_list (build_merged_cells (merged_ranges sh))
              (build_merged_master_cells (merged_ranges sh))
              (range 1 (sheet_max_column sh + 1)) sh (NoDup_range _ _))
    as (Hshape & Hcells & Hw).
  match type of Hcells with cells ?t = _ => set (sh' := t) in * end.
  assert (∀ col, spec_max_length sh' col
                 = column_max_length (build_merged_cells (merged_ranges sh))
                     (build_merged_master_cells (merged_ranges sh)) sh col) as Hlen.
  { intros col. rewrite column_max_length_spec.
    apply spec_max_length_cells; [done|].
    intros x. unfold sheet_cell. by rewrite Hcells. }
  split_and!; [done..|]. intros col. rewrite Hw.
  destruct (decide (col ∈ range 1 (sheet_max_column sh + 1) ∧ _)) as [[Hin Hpos]|Hn].
  - apply elem_of_range in Hin.
    rewrite decide_True by (rewrite Hlen; split; [lia|done]).
    by rewrite Hlen.
  - rewrite decide_False; [done|]. rewrite Hlen. intros [? ?]. apply Hn.
    split; [|done]. apply elem_of_range. lia.
Qed.

(** ** One sheet under [translate_excel_sheets] *)

Lemma run_inv_emit E st es :
  Forall (λ e, is_translate e = false) es → run_inv E st → run_inv E (emit es st).
Proof.
  intros Hes [Hcache Hcalls]. split; [done|].
  intros text Htext. simpl. rewrite translate_calls_app, (Hcalls text Htext).
  assert (translate_calls text es = 0%nat) as ->; [|lia].
  clear -Hes. induction Hes as [|e es He _ IH]; [done|].
  change (e :: es) with ([e] ++ es).
  by rewrite translate_calls_app, IH, translate_calls_no_call.
Qed.

Lemma sheet_processed_weaken E delay sh sh' st' st'' :
  translation_cache st' ⊆ translation_cache st'' →
  sheet_processed E delay sh sh' st' → sheet_processed E delay sh sh' st''.
Proof.
  intros Hsub (? & ? & Hc). split_and!; [done..|].
  intros y s ? ? ? ? ?. destruct (Hc y s) as [r Hr]; [done..|].
  exists r. by eapply lookup_weaken.
Qed.

Lemma process_sheet_spec E delay sh st :
  run_inv E st →
  run_inv E (process_sheet E delay (sh, st)).2
  ∧ translation_cache st ⊆ translation_cache (process_sheet E delay (sh, st)).2
  ∧ sheet_processed E delay sh (process_sheet E delay (sh, st)).1
                    (process_sheet E delay (sh, st)).2.
Proof.
  intros Hinv. unfold process_sheet. cbn [fst snd]. rewrite walk_sheet_flat. cbn [fst].
  destruct (walk_list_spec E delay (build_merged_cells (merged_ranges sh))
              (build_merged_master_cells (merged_ranges sh)) (grid_coords sh) sh st
              (NoDup_grid_coords sh) Hinv)
    as (Hinv' & Hsub & Hshape & Hw & Hcells & Hcached).
  match type of Hinv' with run_inv E (?t).2 => set (σ1 := t) in * end.
  assert (merged_ranges sh = merged_ranges σ1.1) as Hm by (symmetry; apply Hshape).
  rewrite Hm.
  destruct (adjust_columns_spec σ1.1) as (Hshape2 & Hcells2 & Hw2).
  match type of Hcells2 with cells ?t = _ => set (sh2 := t) in * end.
  split_and!; [done..|]. split_and!.
  - split; [by eapply same_shape_trans|].
    intros x.
    assert (sheet_cell sh2 x = sheet_cell σ1.1 x) as ->
      by (unfold sheet_cell; by rewrite Hcells2).
    destruct (Hcells x) as [Hin Hout]. unfold eligible_in. split.
    + intros [? ?]. apply Hin. by rewrite elem_of_grid_coords.
    + intros Hn. apply Hout. by rewrite elem_of_grid_coords.
  - intros col. rewrite (Hw2 col), Hw. apply decide_ext.
    by rewrite (proj1 (proj2 Hshape)).
  - intros y s Hy Hel Hv Hs Hsvc.
    apply (Hcached y s); [by apply elem_of_grid_coords|done..].
Qed.

(** ** The loop over the sheets of [translate_excel_sheets] *)

Lemma for_each_sheet_cons body name names ρ :
  for_each_sheet body (name :: names) ρ = body name ρ ≫= for_each_sheet body names.
Proof. done. Qed.

Lemma all_sheets_body_Some E delay name wb st sh :
  worksheets wb !! name = Some sh →
  all_sheets_body E delay name (wb, st)
  = Some (set_sheet wb name (process_sheet E delay (sh, emit [Print (MsgSheet name)] st)).1,
          (process_sheet E delay (sh, emit [Print (MsgSheet name)] st)).2).
Proof. intros Hsh. unfold all_sheets_body. cbn [fst snd]. by rewrite Hsh. Qed.

Lemma all_sheets_loop_spec E delay (names : list str) wb st :
  NoDup names → (∀ n, n ∈ names → is_Some (worksheets wb !! n)) → run_inv E st →
  ∃ wb' st',
    for_each_sheet (all_sheets_body E delay) names (wb, st) = Some (wb', st')
    ∧ run_inv E st'
    ∧ translation_cache st ⊆ translation_cache st'
    ∧ sheetnames wb' = sheetnames wb
    ∧ (∀ n, n ∉ names → worksheets wb' !! n = worksheets wb !! n)
    ∧ (∀ n sh, n ∈ names → worksheets wb !! n = Some sh →
         ∃ sh', worksheets wb' !! n = Some sh' ∧ sheet_processed E delay sh sh' st').
Proof.
  intros Hnd. revert wb st.
  induction Hnd as [|name names Hname Hnd IH]; intros wb st Hsome Hinv.
  - exists wb, st. split_and!; [done..|]. by intros n sh []%elem_of_nil.
  - destruct (Hsome name) as [sh Hsh]; [by left|].
    rewrite for_each_sheet_cons, (all_sheets_body_Some E delay name wb st sh Hsh).
    cbn [mbind option_bind].
    set (st0 := emit [Print (MsgSheet name)] st).
    assert (run_inv E st0) as Hinv0.
    { apply run_inv_emit; [|done]. by repeat constructor. }
    destruct (process_sheet_spec E delay sh st0 Hinv0) as (Hinv1 & Hsub1 & Hproc).
    set (σ := process_sheet E delay (sh, st0)) in *.
    destruct (IH (set_sheet wb name σ.1) σ.2) as (wb' & st' & Hrun & Hinv' & Hsub' & Hn & Hout & Hin).
    { intros n Hn0. simpl. rewrite lookup_insert. case_decide; [eauto|].
      apply Hsome. by right. }
    { done. }
    exists wb', st'. split_and!; [done|done|by etrans|done| |].
    + intros n Hn0. rewrite Hout by (intros ?; apply Hn0; by right).
      simpl. rewrite lookup_insert_ne; [done|]. intros ->. apply Hn0. by left.
    + intros n sh0 [->|Hn']%elem_of_cons Hsh0.
      * rewrite Hout by done. simpl. rewrite lookup_insert_eq.
        exists σ.1. split; [done|]. rewrite Hsh in Hsh0. injection Hsh0 as <-.
        by eapply sheet_processed_weaken.
      * apply Hin; [done|]. simpl. rewrite lookup_insert_ne; [done|].
        intros ->. done.
Qed.

Lemma run_inv_initial E : run_inv E initial_state.
Proof.
  split.
  - intros text result. simpl. by rewrite lookup_empty.
  - intros text _. simpl. by rewrite lookup_empty.
Qed.

(** [translate_excel_sheets] returns, and every sheet of the workbook it
    returns is the processed form of the sheet it was given. *)
Lemma translate_excel_sheets_spec E delay wb :
  workbook_wf wb →
  ∃ wb' st',
    translate_excel_sheets E delay wb = Some (wb', st')
    ∧ run_inv E st'
    ∧ sheetnames wb' = sheetnames wb
    ∧ (∀ n, worksheets wb !! n = None → worksheets wb' !! n = None)
    ∧ (∀ n sh, worksheets wb !! n = Some sh →
         ∃ sh', worksheets wb' !! n = Some sh' ∧ sheet_processed E delay sh sh' st').
Proof.
  intros [Hnd Hdom]. unfold translate_excel_sheets.
  set (st0 := emit [Print (MsgLoading (input_file E))] initial_state).
  assert (run_inv E st0) as Hinv0.
  { apply run_inv_emit; [by repeat constructor|apply run_inv_initial]. }
  destruct (all_sheets_loop_spec E delay (sheetnames wb) wb st0 Hnd)
    as (wb' & st' & -> & Hinv' & Hsub & Hn & Hout & Hin); [by intros n ?%Hdom|done|].
  simpl. eexists _, _. split; [done|]. split_and!.
  - apply run_inv_emit; [by repeat constructor|done].
  - done.
  - intros n Hnone. rewrite Hout; [done|].
    intros Hn'%Hdom. rewrite Hnone in Hn'. by destruct Hn'.
  - intros n sh Hsh. destruct (Hin n sh) as (sh' & ? & ?); [|done|].
    { apply Hdom. by rewrite Hsh. }
    exists sh'. split; [done|]. eapply sheet_processed_weaken; [|done]. done.
Qed.

(** ** A delay that [time.sleep] accepts *)

Lemma cell_written_nonneg E delay c c' :
  (0 ≤ delay)%Qc → cell_written E delay c c' → c' = annotated_cell E c.
Proof.
  intros Hdelay%sleep_returns_nonneg. unfold cell_written, annotated_cell.
  destruct (qualifies (value c)); [|done].
  intros [Ha [Hv|[? _]]]; [|congruence].
  destruct c' as [v a]. simpl in *. by subst.
Qed.

Lemma written_sheet_annotated E delay sh sh' :
  (0 ≤ delay)%Qc → written_sheet E delay sh sh' → annotated_sheet E sh sh'.
Proof.
  intros Hdelay [Hshape Hcells]. split; [done|].
  intros x. destruct (Hcells x) as [Hin Hout].
  case_decide; [|by apply Hout]. by apply (cell_written_nonneg E delay), Hin.
Qed.

(** Whatever the delay, a cell outside the grid, a non-master cell and a
    cell that does not qualify are not written. *)
Lemma written_sheet_frame E delay sh sh' x :
  written_sheet E delay sh sh' →
  ¬ (in_grid sh x ∧ eligible_in sh x ∧ qualifies (value (sheet_cell sh x)) = true) →
  sheet_cell sh' x = sheet_cell sh x.
Proof.
  intros [_ Hcells] Hx. destruct (Hcells x) as [Hin Hout].
  destruct (decide (in_grid sh x ∧ eligible_in sh x)) as [Hd|Hd]; [|by apply Hout].
  specialize (Hin Hd). unfold cell_written in Hin.
  destruct (qualifies (value (sheet_cell sh x))) eqn:Hq; [|done].
  destruct Hx. by destruct Hd.
Qed.

(** Whatever the delay, a cell of the grid that is worked on and qualifies
    receives the wrap alignment. *)
Lemma written_sheet_alignment E delay sh sh' x :
  written_sheet E delay sh sh' →
  in_grid sh x → eligible_in sh x → qualifies (value (sheet_cell sh x)) = true →
  alignment (sheet_cell sh' x) = wrap_top.
Proof.
  intros [_ Hcells] Hg He Hq. destruct (Hcells x) as [Hin _].
  specialize (Hin (conj Hg He)). unfold cell_written in Hin. rewrite Hq in Hin.
  by destruct Hin.
Qed.

(** ** The claims about [translate_excel_sheets] *)

Lemma single_sheet_wf name sh :
  workbook_wf {| sheetnames := [name]; worksheets := {[ name := sh ]} |}.
Proof.
  split; simpl.
  - apply NoDup_singleton.
  - intros n. rewrite list_elem_of_singleton. split.
    + intros ->. rewrite lookup_singleton_eq. eauto.
    + intros [sh' Hn]. apply lookup_singleton_Some in Hn. by destruct Hn.
Qed.


Lemma one_tenth_nonneg : (0 ≤ one_tenth)%Qc.
Proof. by apply sleep_returns_nonneg. Qed.

Lemma sample_sheet_master : eligible_in sample_sheet (1, 1).
Proof. right. vm_compute. reflexivity. Qed.


(** C6: after the run, with L the maximum single-line length over the
    eligible cells of a column that hold text, measured on the cells the
    translation pass left, the width of the column is min(L + 2, 50) when
    L > 0 and the width stored before the run when L = 0. *)
Theorem column_width_law
    (E : run_env) (delay : Qc) (wb : workbook) (name : str) (sh : sheet) (col : nat) :
  workbook_wf wb → worksheets wb !! name = Some sh →
  (1 ≤ col ≤ sheet_max_column sh)%nat →
  ∃ wb' st' sh',
    translate_excel_sheets E delay wb = Some (wb', st')
    ∧ worksheets wb' !! name = Some sh'
    ∧ ((0 < spec_max_length sh' col)%nat →
       column_width sh' !! col
       = Some (Qc_of_Z (Z.of_nat (Nat.min (spec_max_length sh' col + 2) 50))))
    ∧ (spec_max_length sh' col = 0%nat →
       column_width sh' !! col = column_width sh !! col).
Proof.
  intros Hwf Hsh Hcol.
  destruct (translate_excel_sheets_spec E delay wb Hwf) as (wb' & st' & Hrun & _ & _ & _ & Hin).
  destruct (Hin name sh Hsh) as (sh' & Hsh' & _ & Hw & _).
  exists wb', st', sh'. split_and!; [done..| |].
  - intros Hpos. by rewrite (Hw col), decide_True.
  - intros Hzero. rewrite (Hw col), decide_False; [done|]. lia.
Qed.

(** At the sample sheet: the longest line of column A after the translation
    pass is "Test", of length 4, and the width of column A is 6. *)
Lemma column_width_law_witness :
  ∃ wb' st' sh',
    translate_excel_sheets sample_env one_tenth sample_workbook = Some (wb', st')
    ∧ worksheets wb' !! sheet1 = Some sh'
    ∧ spec_max_length sh' 1 = 4%nat
    ∧ column_width sh' !! 1%nat = Some (Qc_of_Z 6).
Proof.
  destruct (column_width_law sample_env one_tenth sample_workbook sheet1 sample_sheet 1)
    as (wb' & st' & sh' & Hrun & Hsh' & Hpos & _).
  - apply single_sheet_wf.
  - reflexivity.
  - simpl. lia.
  - assert (spec_max_length sh' 1 = 4%nat) as HL.
    { apply (inj Some).
      transitivity (length_after (translate_excel_sheets sample_env one_tenth sample_workbook)
                      sheet1 1).
      - rewrite Hrun. simpl. by rewrite Hsh'.
      - vm_compute. reflexivity. }
    exists wb', st', sh'. split; [exact Hrun|]. split; [exact Hsh'|]. split; [exact HL|].
    rewrite Hpos by (rewrite HL; lia). by rewrite HL.
Defined.


Lemma twin_sheet_eligible x : eligible_in twin_sheet x.
Proof. left. apply not_elem_of_empty. Qed.



(** ** One step of the traversal of [translate_selected_sheets] *)

Lemma walk_cell_selected_cases E mc mm x σ :
  (walk_cell_selected E mc mm x σ = σ
   ∧ (¬ eligible mc mm x ∨ qualifies (value (sheet_cell σ.1 x)) = false))
  ∨ ∃ s, eligible mc mm x ∧ value (sheet_cell σ.1 x) = VStr s ∧ has_cjk s = true
      ∧ walk_cell_selected E mc mm x σ
        = match translation_cache σ.2 !! strip s with
          | Some cached => (set_value σ.1 x (VStr cached), σ.2)
          | None =>
              match service E (strip s) with
              | Some translated =>
                  (set_alignment
                     (set_value σ.1 x (VStr (bilingual translated (strip s)))) x wrap_only,
                   emit [Sleep one_tenth]
                     (cache_store (strip s) (bilingual translated (strip s))
                        (emit [Translate (strip s) (src_lang E) (tgt_lang E)] σ.2)))
              | None =>
                  (σ.1, emit [Print (MsgTranslateFailed (strip s))]
                          (emit [Translate (strip s) (src_lang E) (tgt_lang E)] σ.2))
              end
          end.
Proof.
  unfold walk_cell_selected. rewrite resolve_cell_eligible.
  destruct (decide (eligible mc mm x)) as [Hel|Hel]; [|left; split; [done|by left]].
  destruct (value (sheet_cell σ.1 x)) as [|s| | |] eqn:Hv;
    try (left; split; [done|by right]).
  destruct (has_cjk s) eqn:Hs.
  - right. exists s. rewrite (has_cjk_truthy s Hs). by split_and!.
  - left. rewrite andb_false_r. split; [done|by right].
Qed.

Lemma walk_cell_selected_not_eligible E mc mm x σ :
  ¬ eligible mc mm x → walk_cell_selected E mc mm x σ = σ.
Proof.
  intros Hel. unfold walk_cell_selected. rewrite resolve_cell_eligible.
  by rewrite decide_False.
Qed.

Lemma walk_cell_selected_other E mc mm x σ y :
  y ≠ x → sheet_cell (walk_cell_selected E mc mm x σ).1 y = sheet_cell σ.1 y.
Proof.
  intros Hne.
  destruct (walk_cell_selected_cases E mc mm x σ) as [[-> _]|(s & _ & _ & _ & ->)]; [done|].
  destruct (translation_cache σ.2 !! strip s); simpl.
  - rewrite sheet_cell_set_value. by rewrite decide_False.
  - destruct (service E (strip s)); simpl; [|done].
    rewrite sheet_cell_annotate. by rewrite decide_False.
Qed.

Lemma walk_cell_selected_frame E mc mm x σ :
  same_shape σ.1 (walk_cell_selected E mc mm x σ).1
  ∧ column_width (walk_cell_selected E mc mm x σ).1 = column_width σ.1.
Proof.
  destruct (walk_cell_selected_cases E mc mm x σ) as [[-> _]|(s & _ & _ & _ & ->)];
    [split; [apply same_shape_refl|done]|].
  destruct (translation_cache σ.2 !! strip s); simpl; [by repeat split|].
  destruct (service E (strip s)); simpl; by repeat split.
Qed.

Lemma walk_cell_selected_calls E mc mm x σ :
  (calls_made (trace (walk_cell_selected E mc mm x σ).2) ≤ calls_made (trace σ.2) + 1)%nat.
Proof.
  destruct (walk_cell_selected_cases E mc mm x σ) as [[-> _]|(s & _ & _ & _ & ->)]; [lia|].
  destruct (translation_cache σ.2 !! strip s); simpl; [lia|].
  destruct (service E (strip s)); simpl; rewrite !calls_made_app;
    unfold calls_made at 2 3; simpl; lia.
Qed.

(** ** One sheet under [translate_selected_sheets] *)

Lemma walk_sheet_selected_flat E mc mm σ :
  walk_sheet_selected E mc mm σ
  = foldl (λ σ x, walk_cell_selected E mc mm x σ) σ (grid_coords σ.1).
Proof.
  unfold walk_sheet_selected, grid_coords.
  apply (nested_foldl_flat (walk_cell_selected E mc mm) (λ σ, sheet_max_column σ.1)).
  intros x σ'. by destruct (walk_cell_selected_frame E mc mm x σ') as [(_ & -> & _) _].
Qed.

Lemma walk_selected_list_frame E mc mm (l : list coord) σ :
  let σ' := foldl (λ σ x, walk_cell_selected E mc mm x σ) σ l in
  same_shape σ.1 σ'.1
  ∧ column_width σ'.1 = column_width σ.1
  ∧ ∀ y, ¬ (y ∈ l ∧ eligible mc mm y) → sheet_cell σ'.1 y = sheet_cell σ.1 y.
Proof.
  cbv zeta. induction l as [|x l IH] using rev_ind.
  - split_and!; [apply same_shape_refl|done..].
  - destruct IH as (Hshape & Hw & Hcells). rewrite foldl_snoc.
    set (σ1 := foldl (λ σ x, walk_cell_selected E mc mm x σ) σ l) in *.
    destruct (walk_cell_selected_frame E mc mm x σ1) as [Hshape' Hw'].
    split_and!; [by eapply same_shape_trans|congruence|].
    intros y Hy. destruct (decide (y = x)) as [->|Hne].
    + rewrite walk_cell_selected_not_eligible.
      * apply Hcells. intros [? ?]. apply Hy. split; [|done]. apply elem_of_app. by left.
      * intros ?. apply Hy. split; [|done]. apply elem_of_app. right. by left.
    + rewrite walk_cell_selected_other by done.
      apply Hcells. intros [? ?]. apply Hy. split; [|done]. apply elem_of_app. by left.
Qed.

Lemma sheet_framed_refl sh : sheet_framed sh sh.
Proof. split_and!; [apply same_shape_refl|done..]. Qed.

Lemma sheet_framed_trans sh1 sh2 sh3 :
  sheet_framed sh1 sh2 → sheet_framed sh2 sh3 → sheet_framed sh1 sh3.
Proof.
  intros (Hs1 & Hw1 & Hc1) (Hs2 & Hw2 & Hc2).
  split_and!; [by eapply same_shape_trans|congruence|].
  intros y Hy. rewrite Hc2, Hc1; [done..|].
  by rewrite (same_shape_in_grid sh1 sh2), (same_shape_eligible_in sh1 sh2).
Qed.

Lemma process_sheet_selected_frame E sh st :
  sheet_framed sh (process_sheet_selected E (sh, st)).1.
Proof.
  unfold process_sheet_selected. cbn [fst]. rewrite walk_sheet_selected_flat. cbn [fst].
  destruct (walk_selected_list_frame E (build_merged_cells (merged_ranges sh))
              (build_merged_master_cells (merged_ranges sh)) (grid_coords sh) (sh, st))
    as (Hshape & Hw & Hcells).
  split_and!; [done..|]. intros y Hy. apply Hcells.
  by rewrite elem_of_grid_coords.
Qed.

(** ** The loop over [sheet_names] *)

Lemma selected_sheets_body_Some E name wb st sh :
  name ∈ sheetnames wb → worksheets wb !! name = Some sh →
  selected_sheets_body E name (wb, st)
  = Some (set_sheet wb name
            (process_sheet_selected E (sh, emit [Print (MsgSheet name)] st)).1,
          (process_sheet_selected E (sh, emit [Print (MsgSheet name)] st)).2).
Proof.
  intros Hin Hsh. unfold selected_sheets_body. cbn [fst snd].
  rewrite decide_True by done. by rewrite Hsh.
Qed.

Lemma selected_sheets_body_skip E name wb st :
  name ∉ sheetnames wb → selected_sheets_body E name (wb, st) = Some (wb, st).
Proof.
  intros Hin. unfold selected_sheets_body. cbn [fst snd]. by rewrite decide_False.
Qed.

Lemma selected_loop_frame E (names : list str) wb st :
  (∀ n, n ∈ sheetnames wb → is_Some (worksheets wb !! n)) →
  ∃ wb' st',
    for_each_sheet (selected_sheets_body E) names (wb, st) = Some (wb', st')
    ∧ sheetnames wb' = sheetnames wb
    ∧ (∀ n, worksheets wb !! n = None → worksheets wb' !! n = None)
    ∧ (∀ n sh, worksheets wb !! n = Some sh →
         ∃ sh', worksheets wb' !! n = Some sh' ∧ sheet_framed sh sh').
Proof.
  revert wb st. induction names as [|name names IH]; intros wb st Hsome.
  - exists wb, st. split_and!; [done..|]. intros n sh ?. exists sh.
    split; [done|apply sheet_framed_refl].
  - rewrite for_each_sheet_cons.
    destruct (decide (name ∈ sheetnames wb)) as [Hin|Hout].
    + destruct (Hsome name Hin) as [sh Hsh].
      rewrite (selected_sheets_body_Some E name wb st sh Hin Hsh). cbn [mbind option_bind].
      set (σ := process_sheet_selected E (sh, emit [Print (MsgSheet name)] st)).
      pose proof (process_sheet_selected_frame E sh (emit [Print (MsgSheet name)] st))
        as Hframe. fold σ in Hframe.
      destruct (IH (set_sheet wb name σ.1) σ.2) as (wb' & st' & Hrun & Hn & Hnone & Hin').
      { intros n Hn0. simpl. rewrite lookup_insert. case_decide; [eauto|]. by apply Hsome. }
      exists wb', st'. split_and!; [done..| |].
      * intros n Hn0. apply Hnone. simpl. rewrite lookup_insert_ne; [done|]. congruence.
      * intros n sh0 Hsh0. destruct (decide (name = n)) as [<-|Hne].
        -- destruct (Hin' name σ.1) as (sh' & ? & ?); [simpl; by rewrite lookup_insert_eq|].
           exists sh'. split; [done|]. rewrite Hsh in Hsh0. injection Hsh0 as <-.
           by eapply sheet_framed_trans.
        -- apply Hin'. simpl. by rewrite lookup_insert_ne.
    + rewrite (selected_sheets_body_skip E name wb st Hout). cbn [mbind option_bind].
      by apply IH.
Qed.

Lemma translate_selected_sheets_frame E names wb :
  workbook_wf wb →
  ∃ wb' st',
    translate_selected_sheets E names wb = Some (wb', st')
    ∧ sheetnames wb' = sheetnames wb
    ∧ (∀ n sh, worksheets wb !! n = Some sh →
         ∃ sh', worksheets wb' !! n = Some sh' ∧ sheet_framed sh sh').
Proof.
  intros [_ Hdom]. unfold translate_selected_sheets.
  destruct (selected_loop_frame E names wb initial_state)
    as (wb' & st' & -> & Hn & _ & Hin); [by intros n ?%Hdom|].
  simpl. eauto 10.
Qed.

(** ** Trimming keeps the ideographs *)

Lemma is_space_not_cjk c : is_space c = true → is_cjk c = false.
Proof.
  unfold is_space, is_cjk.
  rewrite !orb_true_iff, !andb_true_iff, andb_false_iff, !N.leb_le, !N.eqb_eq, !N.leb_gt.
  lia.
Qed.

Lemma has_cjk_app s1 s2 : has_cjk (s1 ++ s2) = has_cjk s1 || has_cjk s2.
Proof. apply existsb_app. Qed.

Lemma has_cjk_rev s : has_cjk (rev s) = has_cjk s.
Proof.
  induction s as [|c s IH]; [done|]. simpl.
  rewrite has_cjk_app, IH. simpl. rewrite orb_false_r. apply orb_comm.
Qed.

Lemma has_cjk_lstrip s : has_cjk (lstrip s) = has_cjk s.
Proof.
  induction s as [|c s IH]; [done|]. simpl.
  destruct (is_space c) eqn:Hc; [|done].
  by rewrite IH, (is_space_not_cjk c Hc).
Qed.

Lemma has_cjk_strip s : has_cjk (strip s) = has_cjk s.
Proof.
  unfold strip, rstrip. by rewrite has_cjk_rev, has_cjk_lstrip, has_cjk_rev, has_cjk_lstrip.
Qed.

(** ** The two traversals side by side *)

Lemma same_shape_sym sh sh' : same_shape sh sh' → same_shape sh' sh.
Proof. unfold same_shape. by intros (-> & -> & ->). Qed.

Lemma same_values_refl sh : same_values sh sh.
Proof. split; [apply same_shape_refl|done]. Qed.

Lemma foldl_simulation {A B C : Type} (R : A → B → Prop)
    (f : A → C → A) (g : B → C → B) (l : list C) (a : A) (b : B) :
  (∀ x a b, R a b → R (f a x) (g b x)) → R a b → R (foldl f a l) (foldl g b l).
Proof.
  intros Hstep. revert a b. induction l as [|x l IH]; intros a b Hab; [done|].
  simpl. by apply IH, Hstep.
Qed.

Lemma walk_cell_simulation E delay mc mm x σa σs :
  (0 ≤ delay)%Qc →
  (∀ t, has_cjk t = true → is_Some (service E t)) →
  states_agree σa σs →
  states_agree (walk_cell E delay mc mm x σa) (walk_cell_selected E mc mm x σs).
Proof.
  intros Hdelay%sleep_returns_nonneg Htotal [[Hshape Hvalues] Hcache].
  destruct (walk_cell_cases E delay mc mm x σa)
    as [[-> Ha]|(s & Hel & Hv & Hs & ->)],
     (walk_cell_selected_cases E mc mm x σs)
    as [[-> Hb]|(s' & Hel' & Hv' & Hs' & ->)].
  - done.
  - exfalso. destruct Ha as [?|Hq]; [done|].
    rewrite <- Hvalues, Hv' in Hq. simpl in Hq. congruence.
  - exfalso. destruct Hb as [?|Hq]; [done|].
    rewrite Hvalues, Hv in Hq. simpl in Hq. congruence.
  - assert (s' = s) as -> by (rewrite Hvalues, Hv in Hv'; congruence).
    rewrite (translate_text_qualifying E delay s σa.2 Hs), Hcache.
    apply same_shape_sym in Hshape. destruct Hshape as (Hr & Hc & Hm).
    destruct (translation_cache σa.2 !! strip s) as [cached|].
    + unfold states_agree, same_values. cbn [fst snd]. split_and!; [by repeat split| |done].
      intros y. rewrite sheet_cell_annotate, sheet_cell_set_value.
      case_decide; [done|apply Hvalues].
    + destruct (Htotal (strip s)) as [translated Htr]; [by rewrite has_cjk_strip|].
      rewrite Htr, Hdelay. unfold states_agree, same_values. cbn [fst snd].
      split_and!; [by repeat split| |simpl; by rewrite Hcache].
      intros y. rewrite !sheet_cell_annotate.
      case_decide; [done|apply Hvalues].
Qed.

Lemma process_sheet_simulation E delay σa σs :
  (0 ≤ delay)%Qc →
  (∀ t, has_cjk t = true → is_Some (service E t)) →
  states_agree σa σs →
  states_agree (process_sheet E delay σa) (process_sheet_selected E σs).
Proof.
  intros Hdelay Htotal Hagree. unfold process_sheet, process_sheet_selected.
  pose proof Hagree as [[Hshape _] _].
  rewrite (proj2 (proj2 Hshape)), walk_sheet_flat, walk_sheet_selected_flat.
  rewrite (same_shape_grid_coords σa.1 σs.1 Hshape).
  set (mc := build_merged_cells (merged_ranges σa.1)).
  set (mm := build_merged_master_cells (merged_ranges σa.1)).
  assert (states_agree
            (foldl (λ σ x, walk_cell E delay mc mm x σ) σa (grid_coords σa.1))
            (foldl (λ σ x, walk_cell_selected E mc mm x σ) σs (grid_coords σa.1)))
    as [[Hshape' Hvalues'] Hcache'].
  { apply (foldl_simulation states_agree); [|done].
    intros x a b. by apply walk_cell_simulation. }
  set (σa' := foldl (λ σ x, walk_cell E delay mc mm x σ) σa (grid_coords σa.1)) in *.
  assert (same_shape σa.1 σa'.1) as Hframe.
  { unfold σa'. clear. generalize (grid_coords σa.1). intros l.
    induction l as [|x l IH] using rev_ind; [apply same_shape_refl|].
    rewrite foldl_snoc. eapply same_shape_trans; [done|].
    apply walk_cell_frame. }
  destruct (adjust_columns_spec σa'.1) as (Hshape2 & Hcells2 & _).
  rewrite (proj2 (proj2 Hframe)) in Hshape2, Hcells2. fold mc mm in Hshape2, Hcells2.
  split; [|done]. cbn [fst snd]. split.
  - eapply same_shape_trans; [by apply same_shape_sym|done].
  - intros y. rewrite Hvalues'. unfold sheet_cell. by rewrite Hcells2.
Qed.

Lemma runs_agree_refl ρ : runs_agree ρ ρ.
Proof.
  split_and!; [done..|]. intros n. destruct (worksheets ρ.1 !! n); constructor.
  apply same_values_refl.
Qed.

Lemma loops_agree E delay (names : list str) ρa ρs :
  (0 ≤ delay)%Qc →
  (∀ t, has_cjk t = true → is_Some (service E t)) →
  (∀ n, n ∈ names → n ∈ sheetnames ρa.1 ∧ is_Some (worksheets ρa.1 !! n)) →
  runs_agree ρa ρs →
  ∃ ρa' ρs',
    for_each_sheet (all_sheets_body E delay) names ρa = Some ρa'
    ∧ for_each_sheet (selected_sheets_body E) names ρs = Some ρs'
    ∧ runs_agree ρa' ρs'.
Proof.
  intros Hdelay Htotal. revert ρa ρs.
  induction names as [|name names IH]; intros [wba sta] [wbs sts] Hnames Hagree.
  - by exists (wba, sta), (wbs, sts).
  - destruct Hagree as (Hn & Hcache & Hsheets). cbn [fst snd] in *.
    destruct (Hnames name) as [Hin [sha Hsha]]; [by left|].
    pose proof (Hsheets name) as Hname. rewrite Hsha in Hname.
    inversion Hname as [? shs Hsame Heq1 Heq2|]. subst. symmetry in Heq2.
    rewrite !for_each_sheet_cons.
    rewrite (all_sheets_body_Some E delay name wba sta sha Hsha).
    rewrite (selected_sheets_body_Some E name wbs sts shs) by (by rewrite ?Hn).
    cbn [mbind option_bind].
    destruct (process_sheet_simulation E delay
                (sha, emit [Print (MsgSheet name)] sta)
                (shs, emit [Print (MsgSheet name)] sts) Hdelay Htotal)
      as [Hsame' Hcache']; [by split|].
    apply IH.
    + intros n Hn0. destruct (Hnames n) as [? ?]; [by right|].
      cbn [fst snd]. simpl. split; [done|].
      rewrite lookup_insert. by case_decide.
    + split_and!; [done..|]. intros n. cbn [fst snd]. simpl.
      rewrite !lookup_insert. case_decide; [by constructor|apply Hsheets].
Qed.

(** ** The claims about both operations *)

Lemma translate_text_calls E delay s st :
  has_cjk s = true →
  (calls_made (trace (translate_text E delay (VStr s) st).2) ≤ calls_made (trace st) + 1)%nat.
Proof.
  intros Hs. rewrite (translate_text_qualifying E delay s st Hs).
  destruct (translation_cache st !! strip s); simpl; [lia|].
  destruct (service E (strip s)); [destruct (sleep_returns delay)|];
    simpl; rewrite !calls_made_app; unfold calls_made at 2 3; simpl; lia.
Qed.

Lemma walk_cell_calls E delay mc mm x σ :
  (calls_made (trace (walk_cell E delay mc mm x σ).2) ≤ calls_made (trace σ.2) + 1)%nat.
Proof.
  destruct (walk_cell_cases E delay mc mm x σ) as [[-> _]|(s & _ & _ & Hs & ->)]; [lia|].
  by apply translate_text_calls.
Qed.

Lemma pairwise_disjoint_singleton R : pairwise_disjoint [R].
Proof.
  intros i j R1 R2 x Hij Hi Hj _ _.
  apply lookup_lt_Some in Hi, Hj. simpl in *. lia.
Qed.



(** Apart from the widths, the alignment and the cells whose translation
    fails, the two operations agree: for a list of titles of the workbook, a
    delay [time.sleep] accepts and a service that translates every text with
    a code point in U+4E00..U+9FFF, [translate_selected_sheets] leaves in
    every sheet the cell values, and in the cache the entries, that the loop
    of [translate_excel_sheets] over those titles leaves, and the column
    widths of the input. *)
Lemma selected_sheets_values_agree
    (E : run_env) (delay : Qc) (names : list str) (wb : workbook) :
  (0 ≤ delay)%Qc →
  workbook_wf wb → (∀ n, n ∈ names → n ∈ sheetnames wb) →
  (∀ t, has_cjk t = true →
        is_Some (translator_translate E t (src_lang E) (tgt_lang E))) →
  ∃ wbs sts wba sta,
    translate_selected_sheets E names wb = Some (wbs, sts)
    ∧ all_sheets_pipeline_on E delay names wb = Some (wba, sta)
    ∧ translation_cache sts = translation_cache sta
    ∧ sheetnames wbs = sheetnames wba
    ∧ ∀ n sh, worksheets wb !! n = Some sh →
        ∃ shs sha, worksheets wbs !! n = Some shs ∧ worksheets wba !! n = Some sha
          ∧ same_shape sha shs
          ∧ (∀ x, value (sheet_cell shs x) = value (sheet_cell sha x))
          ∧ column_width shs = column_width sh.
Proof.
  intros Hdelay Hwf Hnames Htotal.
  destruct (loops_agree E delay names (wb, initial_state) (wb, initial_state) Hdelay Htotal)
    as ([wba sta] & [wbs sts] & Hall & Hsel & Hn & Hcache & Hsheets).
  { intros n Hin. split; [by apply Hnames|]. by apply Hwf, Hnames. }
  { apply runs_agree_refl. }
  destruct (translate_selected_sheets_frame E names wb Hwf)
    as (wbs' & sts' & Hrun & _ & Hframe).
  unfold translate_selected_sheets in *. rewrite Hsel in *. cbn [mbind option_bind] in *.
  injection Hrun as <- <-. cbn [fst snd] in *.
  eexists _, _, wba, sta. split_and!; [done..|].
  intros n sh Hsh. destruct (Hframe n sh Hsh) as (shs & Hshs & _ & Hw & _).
  pose proof (Hsheets n) as Hrel. rewrite Hshs in Hrel.
  inversion Hrel as [sha ? [Hshape Hvalues] Heq1 Heq2|]. subst.
  exists shs, sha. by split_and!.
Qed.

(** C9, at the failing input: the sheet with region A1:B2, the text in A1 and
    "Hello" in C1, and a service that answers "Test".
    [translate_selected_sheets] writes the bilingual string to A1 as
    [translate_excel_sheets] does, but it has no width pass: it leaves the
    widths of columns A and C unset, where [translate_excel_sheets] sets 6
    and 7; and it sets the wrap flag without vertical alignment top.  The
    sheets the two operations return differ. *)
Theorem selected_sheets_no_width_pass :
  value <$> cell_after (translate_selected_sheets sample_env [sheet1] sample_workbook)
              sheet1 (1, 1)
  = Some (VStr (ascii_str "Test" ++ [newline] ++ cjk_test))
  ∧ value <$> cell_after (translate_excel_sheets sample_env one_tenth sample_workbook)
                sheet1 (1, 1)
    = Some (VStr (ascii_str "Test" ++ [newline] ++ cjk_test))
  ∧ width_after (translate_selected_sheets sample_env [sheet1] sample_workbook) sheet1 1
    = Some None
  ∧ width_after (translate_selected_sheets sample_env [sheet1] sample_workbook) sheet1 3
    = Some None
  ∧ width_after (translate_excel_sheets sample_env one_tenth sample_workbook) sheet1 1
    = Some (Some (QArith_base.Qmake 6 1))
  ∧ width_after (translate_excel_sheets sample_env one_tenth sample_workbook) sheet1 3
    = Some (Some (QArith_base.Qmake 7 1))
  ∧ alignment <$> cell_after (translate_selected_sheets sample_env [sheet1] sample_workbook)
                    sheet1 (1, 1)
    = Some wrap_only
  ∧ alignment <$> cell_after (translate_excel_sheets sample_env one_tenth sample_workbook)
                    sheet1 (1, 1)
    = Some wrap_top
  ∧ sheet_after (translate_selected_sheets sample_env [sheet1] sample_workbook) sheet1
    ≠ sheet_after (translate_excel_sheets sample_env one_tenth sample_workbook) sheet1.
Proof.
  split_and!; [vm_compute; reflexivity..|].
  intros Heq.
  apply (f_equal (λ o, (λ sh, this <$> column_width sh !! 1%nat) <$> o)) in Heq.
  vm_compute in Heq. discriminate.
Qed.

(** ** Where the two operations part from the specification *)

(** X17: what [translate_excel_sheets] does to a qualifying cell whose text the
    service fails on: the cell receives its trimmed text and the wrap
    alignment. *)
Lemma failed_translation_all_sheets
    (E : run_env) (delay : Qc) (wb : workbook) (name : str) (sh : sheet)
    (x : coord) (s : str) :
  workbook_wf wb → worksheets wb !! name = Some sh →
  in_grid sh x → eligible_in sh x →
  value (sheet_cell sh x) = VStr s → has_cjk s = true →
  translator_translate E (strip s) (src_lang E) (tgt_lang E) = None →
  ∃ wb' st' sh',
    translate_excel_sheets E delay wb = Some (wb', st')
    ∧ worksheets wb' !! name = Some sh'
    ∧ sheet_cell sh' x = {| value := VStr (strip s); alignment := wrap_top |}.
Proof.
  intros Hwf Hsh Hgrid Hel Hv Hs Hfail.
  destruct (translate_excel_sheets_spec E delay wb Hwf) as (wb' & st' & Hrun & _ & _ & _ & Hin).
  destruct (Hin name sh Hsh) as (sh' & Hsh' & [_ Hcells] & _).
  exists wb', st', sh'. split_and!; [done..|].
  destruct (Hcells x) as [Hwritten _]. specialize (Hwritten (conj Hgrid Hel)).
  unfold cell_written in Hwritten. rewrite Hv in Hwritten. simpl in Hwritten.
  rewrite Hs in Hwritten. unfold service in Hwritten. rewrite Hfail in Hwritten.
  destruct (sheet_cell sh' x) as [v a]. simpl in *.
  destruct Hwritten as [-> [->|[_ ->]]]; done.
Qed.

(** X18: in [translate_excel_sheets] every cell whose value the run changed has
    the wrap alignment with vertical alignment top. *)
Lemma mutated_cells_wrap_top_all_sheets
    (E : run_env) (delay : Qc) (wb : workbook) (name : str) (sh : sheet) :
  workbook_wf wb → worksheets wb !! name = Some sh →
  ∃ wb' st' sh',
    translate_excel_sheets E delay wb = Some (wb', st')
    ∧ worksheets wb' !! name = Some sh'
    ∧ ∀ x, value (sheet_cell sh' x) ≠ value (sheet_cell sh x) →
           alignment (sheet_cell sh' x) = wrap_top.
Proof.
  intros Hwf Hsh.
  destruct (translate_excel_sheets_spec E delay wb Hwf) as (wb' & st' & Hrun & _ & _ & _ & Hin).
  destruct (Hin name sh Hsh) as (sh' & Hsh' & Hwritten & _).
  exists wb', st', sh'. split_and!; [done..|].
  intros x Hne.
  destruct (decide (in_grid sh x ∧ eligible_in sh x
                    ∧ qualifies (value (sheet_cell sh x)) = true)) as [(? & ? & ?)|Hn].
  - by eapply written_sheet_alignment.
  - destruct Hne. by rewrite (written_sheet_frame E delay sh sh' x Hwritten Hn).
Qed.

(** C1, at the failing input: the service raises for the text of A1, which
    stands between two spaces.  [translate_excel_sheets] replaces the value
    by the trimmed text and sets the wrap alignment, where the claim keeps
    the value and the presentation; the failure is printed and the run
    returns.  [translate_selected_sheets] leaves the cell as it was. *)
Theorem failed_translation_overwrites_cell :
  sheet_cell spaced_sheet (1, 1)
  = {| value := VStr cjk_test_spaced; alignment := mkAlignment None None None |}
  ∧ cell_after (translate_excel_sheets failing_env one_tenth spaced_workbook) sheet1 (1, 1)
    = Some {| value := VStr cjk_test; alignment := wrap_top |}
  ∧ trace_after (translate_excel_sheets failing_env one_tenth spaced_workbook)
    = Some [Print (MsgLoading (ascii_str "in.xlsx"));
            Print (MsgSheet sheet1);
            Translate cjk_test (ascii_str "zh-cn") (ascii_str "en");
            Print (MsgTranslateFailed cjk_test);
            Print (MsgSaving (ascii_str "out.xlsx"));
            Print MsgDone;
            Print (MsgStatistics 1 0)]
  ∧ cell_after (translate_selected_sheets failing_env [sheet1] spaced_workbook) sheet1 (1, 1)
    = Some {| value := VStr cjk_test_spaced; alignment := mkAlignment None None None |}.
Proof. split_and!; vm_compute; reflexivity. Qed.

(** C8, at the failing input: the same text in A1 and B1 and a service that
    translates it.  [translate_selected_sheets] writes the bilingual string
    to both cells; A1, translated by a call, receives the wrap flag without
    vertical alignment top, and B1, served from the cache, keeps the
    alignment it had.  [translate_excel_sheets] sets wrap and top on both. *)
Theorem selected_sheets_alignment :
  cell_after (translate_selected_sheets sample_env [sheet1] twin_workbook) sheet1 (1, 1)
  = Some {| value := VStr (ascii_str "Test" ++ [newline] ++ cjk_test);
            alignment := {| horizontal := None; vertical := None; wrapText := Some true |} |}
  ∧ cell_after (translate_selected_sheets sample_env [sheet1] twin_workbook) sheet1 (1, 2)
    = Some {| value := VStr (ascii_str "Test" ++ [newline] ++ cjk_test);
              alignment := {| horizontal := None; vertical := None; wrapText := None |} |}
  ∧ cell_after (translate_excel_sheets sample_env one_tenth twin_workbook) sheet1 (1, 1)
    = Some {| value := VStr (ascii_str "Test" ++ [newline] ++ cjk_test);
              alignment := wrap_top |}
  ∧ cell_after (translate_excel_sheets sample_env one_tenth twin_workbook) sheet1 (1, 2)
    = Some {| value := VStr (ascii_str "Test" ++ [newline] ++ cjk_test);
              alignment := wrap_top |}.
Proof. split_and!; vm_compute; reflexivity. Qed.

(** The end-to-end example of the specification: region A1:B2 with the text
    in A1, "Hello" in C1, and a service that answers "Test". *)
Example end_to_end :
  cell_after (translate_excel_sheets sample_env one_tenth sample_workbook) sheet1 (1, 1)
  = Some {| value := VStr (ascii_str "Test" ++ [newline] ++ cjk_test); alignment := wrap_top |}
  ∧ cell_after (translate_excel_sheets sample_env one_tenth sample_workbook) sheet1 (1, 2)
    = Some blank_cell
  ∧ cell_after (translate_excel_sheets sample_env one_tenth sample_workbook) sheet1 (1, 3)
    = Some (text_cell (ascii_str "Hello"))
  ∧ width_after (translate_excel_sheets sample_env one_tenth sample_workbook) sheet1 1
    = Some (Some (QArith_base.Qmake 6 1))
  ∧ width_after (translate_excel_sheets sample_env one_tenth sample_workbook) sheet1 2
    = Some None
  ∧ width_after (translate_excel_sheets sample_env one_tenth sample_workbook) sheet1 3
    = Some (Some (QArith_base.Qmake 7 1)).
Proof. split_and!; vm_compute; reflexivity. Qed.

(** * Further properties *)

(** ** The region index *)

(** X1: a coordinate is in the set [merged_cells] exactly when it lies in the
    rectangle of one of the merged ranges. *)
Theorem covered_iff_in_some_range (rs : list merged_range) (x : coord) :
  x ∈ build_merged_cells rs
  ↔ ∃ R, R ∈ rs ∧ (min_row R ≤ x.1 ≤ max_row R)%nat ∧ (min_col R ≤ x.2 ≤ max_col R)%nat.
Proof. apply elem_of_build_merged_cells. Qed.

(** X2: the ranges come from a set, whose order is not fixed.  For ranges
    that do not overlap the order does not matter: a reordered list gives the
    same set [merged_cells] and the same dictionary [merged_master_cells]. *)
Theorem region_index_order_independent (rs rs' : list merged_range) :
  rs ≡ₚ rs' → pairwise_disjoint rs →
  build_merged_cells rs' = build_merged_cells rs
  ∧ build_merged_master_cells rs' = build_merged_master_cells rs.
Proof.
  intros Hperm Hdis.
  assert (∀ x, x ∈ build_merged_cells rs' ↔ x ∈ build_merged_cells rs) as Hcov.
  { intros x. rewrite !elem_of_build_merged_cells.
    split; intros (R & HR & ?); exists R; (split; [|done]).
    - by rewrite Hperm.
    - by rewrite <- Hperm. }
  split; [by apply set_eq|].
  apply map_eq. intros x.
  destruct (decide (x ∈ build_merged_cells rs)) as [Hx|Hx].
  - destruct (master_of_covered rs x Hdis Hx) as (R & _ & _ & Huniq & -> & _).
    assert (is_Some (build_merged_master_cells rs' !! x)) as [m Hm].
    { apply build_merged_master_cells_is_Some, elem_of_build_merged_cells. by apply Hcov. }
    rewrite Hm. f_equal.
    apply build_merged_master_cells_Some in Hm as (before & R0 & later & Heq & Hx0 & -> & _).
    rewrite <- (Huniq R0); [done| |done].
    rewrite Hperm, Heq. apply elem_of_app. right. by left.
  - assert (∀ l, x ∉ build_merged_cells l → build_merged_master_cells l !! x = None) as Hnone.
    { intros l Hl. apply eq_None_not_Some. intros Hs. apply Hl.
      by apply elem_of_build_merged_cells, build_merged_master_cells_is_Some. }
    rewrite !Hnone; [done..|]. by rewrite Hcov.
Qed.

Lemma region_index_order_independent_witness :
  build_merged_cells [MergedRange 3 1 3 4; MergedRange 1 1 2 2]
  = build_merged_cells sample_regions
  ∧ build_merged_master_cells [MergedRange 3 1 3 4; MergedRange 1 1 2 2]
    = build_merged_master_cells sample_regions.
Proof.
  apply (region_index_order_independent sample_regions
           [MergedRange 3 1 3 4; MergedRange 1 1 2 2]).
  - apply perm_swap.
  - exact sample_regions_disjoint.
Defined.

(** ** Trimming *)

Lemma lstrip_idem s : lstrip (lstrip s) = lstrip s.
Proof.
  induction s as [|c s IH]; [done|]. simpl.
  destruct (is_space c) eqn:Hc; [done|]. simpl. by rewrite Hc.
Qed.

Lemma lstrip_snoc c l : is_space c = false → lstrip (l ++ [c]) = lstrip l ++ [c].
Proof.
  intros Hc. induction l as [|a l IH]; simpl; [by rewrite Hc|].
  by destruct (is_space a).
Qed.

Lemma lstrip_head s : lstrip s = [] ∨ ∃ c r, lstrip s = c :: r ∧ is_space c = false.
Proof.
  induction s as [|c s IH]; [by left|]. simpl.
  destruct (is_space c) eqn:Hc; [done|]. right. eauto.
Qed.

Lemma strip_idem s : strip (strip s) = strip s.
Proof.
  unfold strip, rstrip.
  destruct (lstrip_head s) as [->|(c & r & -> & Hc)]; [done|].
  simpl. rewrite (lstrip_snoc c (rev r) Hc), rev_app_distr. simpl. rewrite Hc.
  simpl. rewrite rev_involutive, (lstrip_snoc c _ Hc), lstrip_idem.
  by rewrite rev_app_distr.
Qed.

(** ** [translate_text] as a cache *)

Lemma translate_text_truthy E delay s st :
  s ≠ [] →
  translate_text E delay (VStr s) st
  = match translation_cache st !! strip s with
    | Some cached => (VStr cached, st)
    | None =>
        match service E (strip s) with
        | Some translated =>
            if sleep_returns delay then
              (VStr (bilingual translated (strip s)),
               emit [Sleep delay]
                 (cache_store (strip s) (bilingual translated (strip s))
                    (emit [Translate (strip s) (src_lang E) (tgt_lang E)] st)))
            else
              (VStr (strip s),
               emit [Print (MsgTranslateFailed (strip s))]
                 (cache_store (strip s) (bilingual translated (strip s))
                    (emit [Translate (strip s) (src_lang E) (tgt_lang E)] st)))
        | None =>
            (VStr (strip s),
             emit [Print (MsgTranslateFailed (strip s))]
               (emit [Translate (strip s) (src_lang E) (tgt_lang E)] st))
        end
    end.
Proof.
  intros Hs. unfold translate_text, service.
  assert (truthy (VStr s) = true) as -> by (by destruct s).
  simpl. destruct (translation_cache st !! strip s); [done|].
  destruct (translator_translate E (strip s) (src_lang E) (tgt_lang E)); [|done].
  by destruct (sleep_returns delay).
Qed.



(** X4: a failed translation is not cached.  When the service fails on a
    text that is not in the cache, [translate_text] returns the trimmed text
    and leaves the cache as it was, and a second call for the same text goes
    to the service again. *)
Theorem translate_text_failure_not_cached
    (E : run_env) (delay : Qc) (st : state) (s : str) :
  s ≠ [] →
  translation_cache st !! strip s = None →
  translator_translate E (strip s) (src_lang E) (tgt_lang E) = None →
  (translate_text E delay (VStr s) st).1 = VStr (strip s)
  ∧ translation_cache (translate_text E delay (VStr s) st).2 = translation_cache st
  ∧ translate_calls (strip s)
      (trace (translate_text E delay (VStr s) (translate_text E delay (VStr s) st).2).2)
    = (translate_calls (strip s) (trace st) + 2)%nat.
Proof.
  intros Hs Hlook Hfail.
  rewrite (translate_text_truthy E delay s st Hs). unfold service.
  rewrite Hlook, Hfail. cbn [fst snd].
  rewrite (translate_text_truthy E delay s _ Hs). unfold service. simpl.
  rewrite Hlook, Hfail. simpl.
  split_and!; [done..|].
  rewrite !translate_calls_app, !translate_calls_single_eq.
  rewrite (translate_calls_no_call (strip s) (Print (MsgTranslateFailed (strip s)))) by done.
  lia.
Qed.

Lemma translate_text_failure_not_cached_witness :
  (translate_text failing_env one_tenth (VStr cjk_test_spaced) initial_state).1
  = VStr (strip cjk_test_spaced)
  ∧ translation_cache (translate_text failing_env one_tenth (VStr cjk_test_spaced) initial_state).2
    = translation_cache initial_state
  ∧ translate_calls (strip cjk_test_spaced)
      (trace (translate_text failing_env one_tenth (VStr cjk_test_spaced)
                (translate_text failing_env one_tenth (VStr cjk_test_spaced) initial_state).2).2)
    = (translate_calls (strip cjk_test_spaced) (trace initial_state) + 2)%nat.
Proof.
  apply (translate_text_failure_not_cached failing_env one_tenth initial_state cjk_test_spaced).
  - discriminate.
  - reflexivity.
  - reflexivity.
Defined.

(** ** Invariants of the run state of [translate_excel_sheets] *)

Lemma emit_emit es1 es2 st : emit es2 (emit es1 st) = emit (es1 ++ es2) st.
Proof. unfold emit. simpl. by rewrite app_assoc. Qed.

Section state_invariant.
Context (E : run_env) (delay : Qc) (P : state → Prop).
Hypothesis P_print :
  ∀ st m, is_failure_report (Print m) = false → P st → P (emit [Print m] st).
Hypothesis P_translate :
  ∀ st s, has_cjk s = true → P st → P (translate_text E delay (VStr s) st).2.

Lemma walk_cell_invariant mc mm x σ : P σ.2 → P (walk_cell E delay mc mm x σ).2.
Proof using P_translate.
  intros HP.
  destruct (walk_cell_cases E delay mc mm x σ) as [[-> _]|(s & _ & _ & Hs & ->)]; [done|].
  by apply P_translate.
Qed.

Lemma process_sheet_invariant σ : P σ.2 → P (process_sheet E delay σ).2.
Proof using P_translate.
  intros HP. unfold process_sheet. cbn [snd]. rewrite walk_sheet_flat.
  generalize (grid_coords σ.1). intros l.
  induction l as [|x l IH] using rev_ind; [done|].
  rewrite foldl_snoc. by apply walk_cell_invariant.
Qed.

Lemma all_sheets_loop_invariant (names : list str) ρ ρ' :
  for_each_sheet (all_sheets_body E delay) names ρ = Some ρ' → P ρ.2 → P ρ'.2.
Proof using P_print P_translate.
  revert ρ. induction names as [|name names IH]; intros [wb st].
  - simpl. by intros [= <-].
  - rewrite for_each_sheet_cons.
    destruct (worksheets wb !! name) as [sh|] eqn:Hsh.
    + rewrite (all_sheets_body_Some E delay name wb st sh Hsh). cbn [mbind option_bind].
      intros Hrun HP. apply (IH _ Hrun). cbn [snd].
      apply process_sheet_invariant. cbn [snd]. by apply P_print.
    + unfold all_sheets_body. cbn [fst snd]. by rewrite Hsh.
Qed.

Lemma translate_excel_sheets_invariant wb ρ :
  translate_excel_sheets E delay wb = Some ρ → P initial_state → P ρ.2.
Proof using P_print P_translate.
  unfold translate_excel_sheets. intros Hrun HP.
  destruct (for_each_sheet _ _ _) as [ρ1|] eqn:Hloop; [|done].
  simpl in Hrun. injection Hrun as <-. cbn [snd].
  change [Print (MsgSaving (output_file E)); Print MsgDone;
          Print (MsgStatistics (length (sheetnames ρ1.1)) (size (translation_cache ρ1.2)))]
    with ([Print (MsgSaving (output_file E))] ++ [Print MsgDone]
          ++ [Print (MsgStatistics (length (sheetnames ρ1.1)) (size (translation_cache ρ1.2)))]).
  rewrite <- !emit_emit.
  do 3 (apply P_print; [done|]).
  apply (all_sheets_loop_invariant _ _ _ Hloop). cbn [snd]. by apply P_print.
Qed.
End state_invariant.

Lemma sleeps_made_app tr es : sleeps_made (tr ++ es) = (sleeps_made tr + sleeps_made es)%nat.
Proof. unfold sleeps_made. by rewrite filter_app, length_app. Qed.

Lemma failures_reported_app tr es :
  failures_reported (tr ++ es) = (failures_reported tr + failures_reported es)%nat.
Proof. unfold failures_reported. by rewrite filter_app, length_app. Qed.

Lemma calls_made_single e : calls_made [e] = if is_translate e then 1%nat else 0%nat.
Proof. by destruct e. Qed.

Lemma sleeps_made_single e : sleeps_made [e] = if is_sleep e then 1%nat else 0%nat.
Proof. by destruct e. Qed.

Lemma failures_reported_single e :
  failures_reported [e] = if is_failure_report e then 1%nat else 0%nat.
Proof. destruct e as [| |m]; [done..|]. by destruct m. Qed.

(** X5: every call [translate_excel_sheets] makes to the service carries a
    text with a code point in U+4E00..U+9FFF, free of surrounding white
    space, and the source and target locale of the run. *)
Theorem service_calls_well_formed (E : run_env) (delay : Qc) (wb : workbook) :
  workbook_wf wb →
  ∃ wb' st',
    translate_excel_sheets E delay wb = Some (wb', st')
    ∧ ∀ text src dest, Translate text src dest ∈ trace st' →
        has_cjk text = true ∧ strip text = text ∧ src = src_lang E ∧ dest = tgt_lang E.
Proof.
  intros Hwf.
  destruct (translate_excel_sheets_spec E delay wb Hwf) as (wb' & st' & Hrun & _).
  exists wb', st'. split; [done|].
  assert (Forall (call_well_formed E) (trace st')) as Hall.
  { apply (translate_excel_sheets_invariant E delay
             (λ st, Forall (call_well_formed E) (trace st)) ) with (wb := wb) (ρ := (wb', st'));
      [| |done|by constructor].
    - intros st m _ HP. simpl. rewrite Forall_app, Forall_singleton. by split.
    - intros st s Hs HP. rewrite (translate_text_qualifying E delay s st Hs).
      assert (call_well_formed E (Translate (strip s) (src_lang E) (tgt_lang E))) as Hcall.
      { simpl. by rewrite has_cjk_strip, strip_idem. }
      destruct (translation_cache st !! strip s); [done|].
      destruct (service E (strip s)); [destruct (sleep_returns delay)|]; simpl;
        rewrite !Forall_app, !Forall_singleton; by split_and!. }
  intros text src dest Hin. rewrite Forall_forall in Hall. apply (Hall _ Hin).
Qed.

Lemma service_calls_well_formed_witness :
  ∃ wb' st',
    translate_excel_sheets sample_env one_tenth twin_workbook = Some (wb', st')
    ∧ ∀ text src dest, Translate text src dest ∈ trace st' →
        has_cjk text = true ∧ strip text = text
        ∧ src = src_lang sample_env ∧ dest = tgt_lang sample_env.
Proof.
  apply (service_calls_well_formed sample_env one_tenth twin_workbook).
  apply single_sheet_wf.
Defined.



(** X7: when [translate_excel_sheets] returns, every entry of the cache maps
    a trimmed text with a code point in U+4E00..U+9FFF to the service's
    translation of that text, a newline and the text; that text was sent to
    the service exactly once. *)
Theorem final_cache_sound (E : run_env) (delay : Qc) (wb : workbook) :
  workbook_wf wb →
  ∃ wb' st',
    translate_excel_sheets E delay wb = Some (wb', st')
    ∧ ∀ text result, translation_cache st' !! text = Some result →
        has_cjk text = true ∧ strip text = text
        ∧ translate_calls text (trace st') = 1%nat
        ∧ ∃ translated,
            translator_translate E text (src_lang E) (tgt_lang E) = Some translated
            ∧ result = translated ++ [newline] ++ text.
Proof.
  intros Hwf.
  destruct (translate_excel_sheets_spec E delay wb Hwf)
    as (wb' & st' & Hrun & [Hcache Hcalls] & _).
  exists wb', st'. split; [done|].
  pose (P := λ st : state,
          ∀ text, is_Some (translation_cache st !! text) →
                  has_cjk text = true ∧ strip text = text).
  assert (P st') as Hkeys.
  { apply (translate_excel_sheets_invariant E delay P) with (wb := wb) (ρ := (wb', st'));
      [| |done|].
    - intros st m _ HP. done.
    - intros st s Hs HP. rewrite (translate_text_qualifying E delay s st Hs).
      destruct (translation_cache st !! strip s); [done|].
      destruct (service E (strip s)) as [translated|]; [|done].
      assert (∀ text, is_Some (<[strip s:=bilingual translated (strip s)]>
                                 (translation_cache st) !! text) →
                has_cjk text = true ∧ strip text = text) as Hins.
      { intros text. rewrite lookup_insert. case_decide as Heq; [|apply HP].
        intros _. subst text. by rewrite has_cjk_strip, strip_idem. }
      by destruct (sleep_returns delay).
    - intros text. simpl. rewrite lookup_empty. by intros [? ?]. }
  intros text result Hlook.
  destruct (Hkeys text) as [? ?]; [by rewrite Hlook|].
  destruct (Hcache text result Hlook) as (translated & Htr & ->).
  split_and!; [done..| |by exists translated].
  rewrite Hcalls, Hlook; [done|]. by rewrite Htr.
Qed.

Lemma final_cache_sound_witness :
  ∃ wb' st',
    translate_excel_sheets sample_env one_tenth twin_workbook = Some (wb', st')
    ∧ ∀ text result, translation_cache st' !! text = Some result →
        has_cjk text = true ∧ strip text = text
        ∧ translate_calls text (trace st') = 1%nat
        ∧ ∃ translated,
            translator_translate sample_env text (src_lang sample_env) (tgt_lang sample_env)
            = Some translated
            ∧ result = translated ++ [newline] ++ text.
Proof.
  apply (final_cache_sound sample_env one_tenth twin_workbook).
  apply single_sheet_wf.
Defined.

(** ** What [translate_excel_sheets] keeps *)

(** X8: [translate_excel_sheets] keeps the titles and their order, the
    dimensions and the merged ranges of every sheet, and every cell, value
    and alignment, that is outside the grid, or a non-master cell of a
    merged region, or holds a value that does not qualify. *)
Theorem all_sheets_frame (E : run_env) (delay : Qc) (wb : workbook) :
  workbook_wf wb →
  ∃ wb' st',
    translate_excel_sheets E delay wb = Some (wb', st')
    ∧ sheetnames wb' = sheetnames wb
    ∧ (∀ n, worksheets wb !! n = None → worksheets wb' !! n = None)
    ∧ ∀ n sh, worksheets wb !! n = Some sh →
        ∃ sh', worksheets wb' !! n = Some sh'
          ∧ sheet_max_row sh' = sheet_max_row sh
          ∧ sheet_max_column sh' = sheet_max_column sh
          ∧ merged_ranges sh' = merged_ranges sh
          ∧ ∀ x, ¬ (in_grid sh x ∧ eligible_in sh x
                    ∧ qualifies (value (sheet_cell sh x)) = true) →
                 sheet_cell sh' x = sheet_cell sh x.
Proof.
  intros Hwf.
  destruct (translate_excel_sheets_spec E delay wb Hwf)
    as (wb' & st' & Hrun & _ & Hnames & Hnone & Hin).
  exists wb', st'. split_and!; [done..|].
  intros n sh Hsh. destruct (Hin n sh Hsh) as (sh' & Hsh' & Hwritten & _).
  pose proof Hwritten as [(? & ? & ?) _].
  exists sh'. split_and!; [done..|].
  intros x Hx. by apply (written_sheet_frame E delay).
Qed.

Lemma all_sheets_frame_witness :
  ∃ wb' st',
    translate_excel_sheets sample_env one_tenth sample_workbook = Some (wb', st')
    ∧ sheetnames wb' = sheetnames sample_workbook
    ∧ (∀ n, worksheets sample_workbook !! n = None → worksheets wb' !! n = None)
    ∧ ∀ n sh, worksheets sample_workbook !! n = Some sh →
        ∃ sh', worksheets wb' !! n = Some sh'
          ∧ sheet_max_row sh' = sheet_max_row sh
          ∧ sheet_max_column sh' = sheet_max_column sh
          ∧ merged_ranges sh' = merged_ranges sh
          ∧ ∀ x, ¬ (in_grid sh x ∧ eligible_in sh x
                    ∧ qualifies (value (sheet_cell sh x)) = true) →
                 sheet_cell sh' x = sheet_cell sh x.
Proof.
  apply (all_sheets_frame sample_env one_tenth sample_workbook).
  apply single_sheet_wf.
Defined.

Lemma qualifies_annotated_value E v : qualifies (annotated_value E v) = qualifies v.
Proof.
  destruct v as [|s| | |]; try done. simpl.
  destruct (has_cjk s) eqn:Hs; [|by simpl].
  destruct (service E (strip s)); simpl.
  - unfold bilingual. rewrite !has_cjk_app, has_cjk_strip, Hs. by rewrite !orb_true_r.
  - by rewrite has_cjk_strip.
Qed.

Lemma translate_excel_sheets_wf E delay wb wb' st' :
  workbook_wf wb → translate_excel_sheets E delay wb = Some (wb', st') → workbook_wf wb'.
Proof.
  intros Hwf Hrun.
  destruct (translate_excel_sheets_spec E delay wb Hwf)
    as (wb1 & st1 & Hrun1 & _ & Hnames & Hnone & Hsome).
  rewrite Hrun in Hrun1. injection Hrun1 as <- <-.
  destruct Hwf as [Hnd Hdom]. split; [by rewrite Hnames|].
  intros n. rewrite Hnames, Hdom. split.
  - intros [sh Hsh]. destruct (Hsome n sh Hsh) as (sh' & -> & _). eauto.
  - intros Hn. destruct (worksheets wb !! n) eqn:Hlook; [eauto|].
    rewrite (Hnone n Hlook) in Hn. by destruct Hn.
Qed.



(** ** The widths *)

(** X10: [translate_excel_sheets] leaves the width of a column as stored or
    sets it to a whole number from 3 to 50, and it never sets the width of
    a column beyond [sheet.max_column]. *)
Theorem width_bounds (E : run_env) (delay : Qc) (wb : workbook)
    (name : str) (sh : sheet) (col : nat) :
  workbook_wf wb → worksheets wb !! name = Some sh →
  ∃ wb' st' sh',
    translate_excel_sheets E delay wb = Some (wb', st')
    ∧ worksheets wb' !! name = Some sh'
    ∧ (column_width sh' !! col = column_width sh !! col
       ∨ ∃ w : nat, (3 ≤ w ≤ 50)%nat
                    ∧ column_width sh' !! col = Some (Qc_of_Z (Z.of_nat w)))
    ∧ (¬ (1 ≤ col ≤ sheet_max_column sh)%nat →
       column_width sh' !! col = column_width sh !! col).
Proof.
  intros Hwf Hsh.
  destruct (translate_excel_sheets_spec E delay wb Hwf) as (wb' & st' & Hrun & _ & _ & _ & Hin).
  destruct (Hin name sh Hsh) as (sh' & Hsh' & _ & Hw & _).
  exists wb', st', sh'. split_and!; [done..| |].
  - rewrite (Hw col). case_decide as Hd; [|by left].
    right. exists (Nat.min (spec_max_length sh' col + 2) 50). split; [lia|done].
  - intros Hcol. rewrite (Hw col), decide_False; [done|]. by intros [? _].
Qed.

Lemma width_bounds_witness :
  ∃ wb' st' sh',
    translate_excel_sheets sample_env one_tenth sample_workbook = Some (wb', st')
    ∧ worksheets wb' !! sheet1 = Some sh'
    ∧ (column_width sh' !! 1%nat = column_width sample_sheet !! 1%nat
       ∨ ∃ w : nat, (3 ≤ w ≤ 50)%nat
                    ∧ column_width sh' !! 1%nat = Some (Qc_of_Z (Z.of_nat w)))
    ∧ (¬ (1 ≤ 1 ≤ sheet_max_column sample_sheet)%nat →
       column_width sh' !! 1%nat = column_width sample_sheet !! 1%nat).
Proof.
  apply (width_bounds sample_env one_tenth sample_workbook sheet1 sample_sheet 1).
  - apply single_sheet_wf.
  - reflexivity.
Defined.

Lemma sheet_eq sh sh' :
  sheet_max_row sh' = sheet_max_row sh → sheet_max_column sh' = sheet_max_column sh →
  merged_ranges sh' = merged_ranges sh → cells sh' = cells sh →
  column_width sh' = column_width sh → sh' = sh.
Proof. destruct sh, sh'. simpl. by intros -> -> -> -> ->. Qed.

(** X11: running the width pass again on its own result changes nothing. *)
Theorem width_pass_idempotent (sh : sheet) :
  adjust_sheet (adjust_sheet sh) = adjust_sheet sh.
Proof.
  unfold adjust_sheet.
  destruct (adjust_columns_spec sh) as (Hshape & Hcells & Hw).
  set (sh1 := adjust_columns _ _ sh) in *.
  destruct (adjust_columns_spec sh1) as (Hshape' & Hcells' & Hw').
  set (sh2 := adjust_columns _ _ sh1) in *.
  destruct Hshape' as (Hr & Hc & Hm).
  apply sheet_eq; [done..|]. apply map_eq. intros col.
  assert (spec_max_length sh2 col = spec_max_length sh1 col) as Hlen.
  { apply spec_max_length_cells; [by repeat split|].
    intros x. unfold sheet_cell. by rewrite Hcells'. }
  rewrite (Hw' col), (Hw col).
  destruct Hshape as (_ & Hc1 & _).
  destruct (decide ((1 ≤ col ≤ sheet_max_column sh1)%nat ∧ _)) as [[? Hpos]|Hn].
  - rewrite Hlen in Hpos. rewrite decide_True by (split; [lia|done]). by rewrite Hlen.
  - rewrite decide_False; [done|]. rewrite <- Hlen. intros [? ?]. apply Hn. split; [lia|done].
Qed.

(** ** [translate_selected_sheets] *)

Lemma walk_cell_selected_cache_ok E mc mm x σ :
  cache_ok E σ.2 → cache_ok E (walk_cell_selected E mc mm x σ).2.
Proof.
  intros Hok.
  destruct (walk_cell_selected_cases E mc mm x σ) as [[-> _]|(s & _ & _ & _ & ->)]; [done|].
  destruct (translation_cache σ.2 !! strip s); [done|].
  destruct (service E (strip s)) as [translated|] eqn:Hsvc; [|done].
  intros text result. simpl. rewrite lookup_insert. case_decide as Heq; [|apply Hok].
  intros [= <-]. subst text. eauto.
Qed.

Lemma walk_cell_selected_value E mc mm x σ :
  cache_ok E σ.2 → eligible mc mm x →
  value (sheet_cell (walk_cell_selected E mc mm x σ).1 x)
  = selected_value E (value (sheet_cell σ.1 x)).
Proof.
  intros Hok Hel. unfold selected_value.
  destruct (walk_cell_selected_cases E mc mm x σ)
    as [[-> [?|Hq]]|(s & _ & Hv & Hs & ->)]; [done| |].
  - destruct (value (sheet_cell σ.1 x)); try done. simpl in Hq. by rewrite Hq.
  - rewrite Hv, Hs.
    destruct (translation_cache σ.2 !! strip s) as [cached|] eqn:Hlook.
    + destruct (Hok _ _ Hlook) as (translated & -> & ->). simpl.
      by rewrite sheet_cell_set_value, decide_True.
    + destruct (service E (strip s)); simpl; [|done].
      by rewrite sheet_cell_annotate, decide_True.
Qed.

Lemma walk_cell_selected_left_alone E mc mm x σ :
  cache_ok E σ.2 → left_alone E (value (sheet_cell σ.1 x)) →
  (walk_cell_selected E mc mm x σ).1 = σ.1.
Proof.
  intros Hok Hleft.
  destruct (walk_cell_selected_cases E mc mm x σ) as [[-> _]|(s & _ & Hv & Hs & ->)]; [done|].
  destruct Hleft as [Hq|(s' & Hv' & Hfail)].
  - rewrite Hv in Hq. simpl in Hq. congruence.
  - rewrite Hv in Hv'. injection Hv' as <-.
    destruct (translation_cache σ.2 !! strip s) as [cached|] eqn:Hlook.
    + destruct (Hok _ _ Hlook) as (translated & Htr & _). congruence.
    + by rewrite Hfail.
Qed.

Lemma walk_selected_list_spec E mc mm (l : list coord) sh st :
  NoDup l → cache_ok E st →
  let σ' := foldl (λ σ x, walk_cell_selected E mc mm x σ) (sh, st) l in
  cache_ok E σ'.2
  ∧ (∀ y, value (sheet_cell σ'.1 y)
          = if decide (y ∈ l ∧ eligible mc mm y)
            then selected_value E (value (sheet_cell sh y))
            else value (sheet_cell sh y))
  ∧ (∀ y, left_alone E (value (sheet_cell sh y)) → sheet_cell σ'.1 y = sheet_cell sh y).
Proof.
  intros Hnd Hok. cbv zeta. induction l as [|x l IH] using rev_ind.
  - split_and!; [done| |done].
    intros y. rewrite decide_False; [done|]. intros [[]%elem_of_nil _].
  - apply NoDup_app in Hnd as (Hnd & Hx & _).
    destruct (IH Hnd) as (Hok' & Hvalues & Hleft). clear IH.
    rewrite foldl_snoc.
    set (σ1 := foldl (λ σ x, walk_cell_selected E mc mm x σ) (sh, st) l) in *.
    assert (x ∉ l) as Hxl by (intros ?; eapply Hx; [done|by left]).
    split_and!.
    + by apply walk_cell_selected_cache_ok.
    + intros y. destruct (decide (y = x)) as [->|Hne].
      * assert (value (sheet_cell σ1.1 x) = value (sheet_cell sh x)) as Hx1.
        { rewrite Hvalues, decide_False; [done|]. by intros [? _]. }
        destruct (decide (eligible mc mm x)) as [Hel|Hel].
        -- rewrite walk_cell_selected_value, Hx1, decide_True; [done| |done..].
           split; [|done]. apply elem_of_app. right. by left.
        -- rewrite walk_cell_selected_not_eligible, Hx1, decide_False; [done| |done].
           by intros [_ ?].
      * rewrite walk_cell_selected_other, Hvalues by done.
        destruct (decide (y ∈ l ∧ eligible mc mm y)) as [[? ?]|Hn].
        -- rewrite decide_True; [done|]. split; [|done]. apply elem_of_app. by left.
        -- rewrite decide_False; [done|]. intros [[?|Hin]%elem_of_app ?]; [by apply Hn|].
           by apply list_elem_of_singleton in Hin.
    + intros y Hy. destruct (decide (y = x)) as [->|Hne].
      * rewrite walk_cell_selected_left_alone; [by apply Hleft|done|].
        by rewrite (Hleft x Hy).
      * rewrite walk_cell_selected_other by done. by apply Hleft.
Qed.

Lemma process_sheet_selected_spec E sh st :
  cache_ok E st →
  cache_ok E (process_sheet_selected E (sh, st)).2
  ∧ (∀ y, value (sheet_cell (process_sheet_selected E (sh, st)).1 y)
          = if decide (in_grid sh y ∧ eligible_in sh y)
            then selected_value E (value (sheet_cell sh y))
            else value (sheet_cell sh y))
  ∧ (∀ y, left_alone E (value (sheet_cell sh y)) →
          sheet_cell (process_sheet_selected E (sh, st)).1 y = sheet_cell sh y).
Proof.
  intros Hok. unfold process_sheet_selected. cbn [fst].
  rewrite walk_sheet_selected_flat. cbn [fst].
  destruct (walk_selected_list_spec E (build_merged_cells (merged_ranges sh))
              (build_merged_master_cells (merged_ranges sh)) (grid_coords sh) sh st
              (NoDup_grid_coords sh) Hok) as (Hok' & Hvalues & Hleft).
  split_and!; [done| |done].
  intros y. rewrite Hvalues. apply decide_ext. unfold eligible_in.
  by rewrite elem_of_grid_coords.
Qed.

Lemma cache_ok_emit E es st : cache_ok E st → cache_ok E (emit es st).
Proof. done. Qed.

Lemma for_each_sheet_app body (l1 l2 : list str) ρ :
  for_each_sheet body (l1 ++ l2) ρ = for_each_sheet body l1 ρ ≫= for_each_sheet body l2.
Proof.
  revert ρ. induction l1 as [|n l1 IH]; intros ρ; [done|].
  simpl. destruct (body n ρ) as [ρ'|]; [|done]. simpl. apply IH.
Qed.

Lemma selected_loop_spec E (names : list str) wb st :
  cache_ok E st → (∀ n, n ∈ sheetnames wb → is_Some (worksheets wb !! n)) →
  ∃ wb' st',
    for_each_sheet (selected_sheets_body E) names (wb, st) = Some (wb', st')
    ∧ cache_ok E st'
    ∧ sheetnames wb' = sheetnames wb
    ∧ (∀ n, is_Some (worksheets wb !! n) → is_Some (worksheets wb' !! n))
    ∧ (∀ n, n ∉ names → worksheets wb' !! n = worksheets wb !! n)
    ∧ (∀ n sh x, worksheets wb !! n = Some sh → left_alone E (value (sheet_cell sh x)) →
         ∃ sh', worksheets wb' !! n = Some sh' ∧ sheet_cell sh' x = sheet_cell sh x).
Proof.
  revert wb st. induction names as [|name names IH]; intros wb st Hok Hsome.
  - exists wb, st. split_and!; [done..|]. intros n sh x ? ?. by exists sh.
  - rewrite for_each_sheet_cons.
    destruct (decide (name ∈ sheetnames wb)) as [Hin|Hout].
    + destruct (Hsome name Hin) as [sh Hsh].
      rewrite (selected_sheets_body_Some E name wb st sh Hin Hsh). cbn [mbind option_bind].
      destruct (process_sheet_selected_spec E sh (emit [Print (MsgSheet name)] st))
        as (Hok1 & _ & Hleft1); [done|].
      set (σ := process_sheet_selected E (sh, emit [Print (MsgSheet name)] st)) in *.
      destruct (IH (set_sheet wb name σ.1) σ.2)
        as (wb' & st' & Hrun & Hok' & Hn & Hkeep & Hout & Hleft); [done| |].
      { intros n Hn0. simpl. rewrite lookup_insert. case_decide; [eauto|]. by apply Hsome. }
      exists wb', st'. split_and!; [done..| | |].
      * intros n Hn0. apply Hkeep. simpl. rewrite lookup_insert. by case_decide.
      * intros n Hn0. rewrite Hout by (intros ?; apply Hn0; by right).
        simpl. rewrite lookup_insert_ne; [done|]. intros ->. apply Hn0. by left.
      * intros n sh0 x Hsh0 Hx. destruct (decide (name = n)) as [<-|Hne].
        -- rewrite Hsh in Hsh0. injection Hsh0 as <-.
           destruct (Hleft name σ.1 x) as (sh' & ? & Hcell).
           { simpl. by rewrite lookup_insert_eq. }
           { by rewrite (Hleft1 x Hx). }
           exists sh'. split; [done|]. by rewrite Hcell, (Hleft1 x Hx).
        -- apply Hleft; [|done]. simpl. by rewrite lookup_insert_ne.
    + rewrite (selected_sheets_body_skip E name wb st Hout). cbn [mbind option_bind].
      destruct (IH wb st Hok Hsome) as (wb' & st' & Hrun & Hok' & Hn & Hkeep & Hout' & Hleft).
      exists wb', st'. split_and!; [done..| |done].
      intros n Hn0. apply Hout'. intros ?. apply Hn0. by right.
Qed.

Lemma cache_ok_initial E : cache_ok E initial_state.
Proof. intros text result. simpl. by rewrite lookup_empty. Qed.

(** X12: [translate_selected_sheets] skips the names that are not titles of
    the workbook: the call gives the same workbook, cache and trace as the
    call with those names removed from the list. *)
Theorem selected_sheets_skips_unknown_names
    (E : run_env) (sheet_names : list str) (wb : workbook) :
  translate_selected_sheets E sheet_names wb
  = translate_selected_sheets E (filter (λ n, n ∈ sheetnames wb) sheet_names) wb.
Proof.
  unfold translate_selected_sheets. f_equal.
  generalize initial_state. intros st.
  assert (∀ wb0 st0, sheetnames wb0 = sheetnames wb →
            for_each_sheet (selected_sheets_body E) sheet_names (wb0, st0)
            = for_each_sheet (selected_sheets_body E)
                (filter (λ n, n ∈ sheetnames wb) sheet_names) (wb0, st0)) as H;
    [|by apply H].
  induction sheet_names as [|name names IH]; intros wb0 st0 Hn; [done|].
  destruct (decide (name ∈ sheetnames wb)) as [Hin|Hout].
  - rewrite filter_cons_True by done. rewrite !for_each_sheet_cons.
    destruct (selected_sheets_body E name (wb0, st0)) as [[wb1 st1]|] eqn:Hbody; [|done].
    cbn [mbind option_bind]. apply IH.
    unfold selected_sheets_body in Hbody. cbn [fst snd] in Hbody.
    rewrite decide_True in Hbody by (by rewrite Hn).
    destruct (worksheets wb0 !! name); [|done]. simpl in Hbody.
    by injection Hbody as <- <-.
  - rewrite filter_cons_False by done. rewrite for_each_sheet_cons.
    rewrite selected_sheets_body_skip by (by rewrite Hn). cbn [mbind option_bind].
    by apply IH.
Qed.

(** X13: [translate_selected_sheets] returns for every list of names; it
    keeps the titles, and the dimensions, merged ranges and column widths of
    every sheet, and a sheet whose title is not listed is returned as it
    was. *)
Theorem selected_sheets_frame (E : run_env) (sheet_names : list str) (wb : workbook) :
  workbook_wf wb →
  ∃ wb' st',
    translate_selected_sheets E sheet_names wb = Some (wb', st')
    ∧ sheetnames wb' = sheetnames wb
    ∧ ∀ n sh, worksheets wb !! n = Some sh →
        ∃ sh', worksheets wb' !! n = Some sh'
          ∧ sheet_max_row sh' = sheet_max_row sh
          ∧ sheet_max_column sh' = sheet_max_column sh
          ∧ merged_ranges sh' = merged_ranges sh
          ∧ column_width sh' = column_width sh
          ∧ (n ∉ sheet_names → sh' = sh).
Proof.
  intros Hwf.
  destruct (translate_selected_sheets_frame E sheet_names wb Hwf)
    as (wb' & st' & Hrun & Hn & Hframe).
  exists wb', st'. split_and!; [done..|].
  intros n sh Hsh. destruct (Hframe n sh Hsh) as (sh' & Hsh' & (? & ? & ?) & ? & _).
  exists sh'. split_and!; [done..|].
  intros Hout. unfold translate_selected_sheets in Hrun.
  destruct (selected_loop_spec E sheet_names wb initial_state (cache_ok_initial E))
    as (wb1 & st1 & Hloop & _ & _ & _ & Hout1 & _); [by intros m ?%Hwf|].
  rewrite Hloop in Hrun. simpl in Hrun. injection Hrun as <- <-.
  rewrite (Hout1 n Hout), Hsh in Hsh'. by injection Hsh' as <-.
Qed.

Lemma selected_sheets_frame_witness :
  ∃ wb' st',
    translate_selected_sheets sample_env [sheet1] sample_workbook = Some (wb', st')
    ∧ sheetnames wb' = sheetnames sample_workbook
    ∧ ∀ n sh, worksheets sample_workbook !! n = Some sh →
        ∃ sh', worksheets wb' !! n = Some sh'
          ∧ sheet_max_row sh' = sheet_max_row sh
          ∧ sheet_max_column sh' = sheet_max_column sh
          ∧ merged_ranges sh' = merged_ranges sh
          ∧ column_width sh' = column_width sh
          ∧ (n ∉ [sheet1] → sh' = sh).
Proof.
  apply (selected_sheets_frame sample_env [sheet1] sample_workbook).
  apply single_sheet_wf.
Defined.

(** X14: in [translate_selected_sheets] a cell whose text the service fails
    on is left as it was, value and alignment, however often its sheet is
    listed. *)
Theorem selected_sheets_failure_leaves_cell
    (E : run_env) (sheet_names : list str) (wb : workbook)
    (name : str) (sh : sheet) (x : coord) (s : str) :
  workbook_wf wb → worksheets wb !! name = Some sh →
  value (sheet_cell sh x) = VStr s →
  translator_translate E (strip s) (src_lang E) (tgt_lang E) = None →
  ∃ wb' st' sh',
    translate_selected_sheets E sheet_names wb = Some (wb', st')
    ∧ worksheets wb' !! name = Some sh'
    ∧ sheet_cell sh' x = sheet_cell sh x.
Proof.
  intros Hwf Hsh Hv Hfail. unfold translate_selected_sheets.
  destruct (selected_loop_spec E sheet_names wb initial_state (cache_ok_initial E))
    as (wb' & st' & -> & _ & _ & _ & _ & Hleft); [by intros m ?%Hwf|].
  destruct (Hleft name sh x Hsh) as (sh' & ? & ?).
  { right. exists s. by split. }
  simpl. by exists wb', (emit [Print (MsgSelectedDone (output_file E))] st'), sh'.
Qed.

Lemma selected_sheets_failure_leaves_cell_witness :
  ∃ wb' st' sh',
    translate_selected_sheets failing_env [sheet1; sheet1] spaced_workbook = Some (wb', st')
    ∧ worksheets wb' !! sheet1 = Some sh'
    ∧ sheet_cell sh' (1, 1) = sheet_cell spaced_sheet (1, 1).
Proof.
  apply (selected_sheets_failure_leaves_cell failing_env [sheet1; sheet1] spaced_workbook
           sheet1 spaced_sheet (1, 1) cjk_test_spaced).
  - apply single_sheet_wf.
  - reflexivity.
  - reflexivity.
  - reflexivity.
Defined.

(** X15: for a sheet listed once, [translate_selected_sheets] leaves in every
    master or unmapped cell of the grid whose text qualifies and is
    translated by the service the translation, a newline and the trimmed
    text, and in every other cell the value it held. *)
Theorem selected_sheets_values
    (E : run_env) (sheet_names : list str) (wb : workbook) (name : str) (sh : sheet) :
  workbook_wf wb → worksheets wb !! name = Some sh →
  NoDup sheet_names → name ∈ sheet_names →
  ∃ wb' st' sh',
    translate_selected_sheets E sheet_names wb = Some (wb', st')
    ∧ worksheets wb' !! name = Some sh'
    ∧ (∀ x s translated,
         in_grid sh x → eligible_in sh x →
         value (sheet_cell sh x) = VStr s → has_cjk s = true →
         translator_translate E (strip s) (src_lang E) (tgt_lang E) = Some translated →
         value (sheet_cell sh' x) = VStr (translated ++ [newline] ++ strip s))
    ∧ (∀ x, ¬ (in_grid sh x ∧ eligible_in sh x ∧ qualifies (value (sheet_cell sh x)) = true) →
         value (sheet_cell sh' x) = value (sheet_cell sh x)).
Proof.
  intros Hwf Hsh Hnd Hin.
  apply list_elem_of_split in Hin as (l1 & l2 & ->).
  apply NoDup_app in Hnd as (_ & Hl1 & Hnd2). apply NoDup_cons in Hnd2 as [Hl2 _].
  assert (name ∉ l1) as Hnl1 by (intros ?; eapply Hl1; [done|by left]).
  unfold translate_selected_sheets. rewrite for_each_sheet_app.
  destruct (selected_loop_spec E l1 wb initial_state (cache_ok_initial E))
    as (wb1 & st1 & -> & Hok1 & Hn1 & Hkeep1 & Hout1 & _); [by intros m ?%Hwf|].
  cbn [mbind option_bind]. rewrite for_each_sheet_cons.
  assert (worksheets wb1 !! name = Some sh) as Hsh1 by (by rewrite Hout1).
  rewrite (selected_sheets_body_Some E name wb1 st1 sh);
    [|rewrite Hn1; apply Hwf; by rewrite Hsh|done].
  cbn [mbind option_bind].
  destruct (process_sheet_selected_spec E sh (emit [Print (MsgSheet name)] st1))
    as (Hok2 & Hvalues & _); [done|].
  set (σ := process_sheet_selected E (sh, emit [Print (MsgSheet name)] st1)) in *.
  destruct (selected_loop_spec E l2 (set_sheet wb1 name σ.1) σ.2 Hok2)
    as (wb' & st' & -> & _ & _ & _ & Hout2 & _).
  { intros n Hn0. simpl. rewrite lookup_insert. case_decide; [eauto|].
    apply Hkeep1, Hwf. by rewrite <- Hn1. }
  simpl. eexists _, _, σ.1. split_and!; [done| | |].
  - rewrite (Hout2 name Hl2). simpl. by rewrite lookup_insert_eq.
  - intros x s translated Hg Hel Hv Hs Htr.
    rewrite Hvalues, decide_True by done. rewrite Hv. simpl. rewrite Hs.
    unfold service. by rewrite Htr.
  - intros x Hx. rewrite Hvalues. case_decide as Hd; [|done].
    destruct (value (sheet_cell sh x)) as [|s| | |] eqn:Hv; try done. simpl.
    destruct (has_cjk s) eqn:Hs; [|done].
    destruct Hx. destruct Hd. by split_and!.
Qed.

Lemma selected_sheets_values_witness :
  ∃ wb' st' sh',
    translate_selected_sheets sample_env [sheet1] sample_workbook = Some (wb', st')
    ∧ worksheets wb' !! sheet1 = Some sh'
    ∧ (∀ x s translated,
         in_grid sample_sheet x → eligible_in sample_sheet x →
         value (sheet_cell sample_sheet x) = VStr s → has_cjk s = true →
         translator_translate sample_env (strip s) (src_lang sample_env) (tgt_lang sample_env)
         = Some translated →
         value (sheet_cell sh' x) = VStr (translated ++ [newline] ++ strip s))
    ∧ (∀ x, ¬ (in_grid sample_sheet x ∧ eligible_in sample_sheet x
               ∧ qualifies (value (sheet_cell sample_sheet x)) = true) →
         value (sheet_cell sh' x) = value (sheet_cell sample_sheet x)).
Proof.
  apply (selected_sheets_values sample_env [sheet1] sample_workbook sheet1 sample_sheet).
  - apply single_sheet_wf.
  - reflexivity.
  - apply NoDup_singleton.
  - by left.
Defined.

(** ** [main] *)

(** X16: [main] reaches its handler only when the workbook cannot be loaded
    or cannot be saved.  Whatever the service does, also when it fails on
    every text, a loaded workbook is processed and handed to [save]. *)
Theorem main_reports_only_io_failures
    (translate : str → str → str → option str) (loaded : option workbook) (save_ok : bool) :
  (∀ wb, loaded = Some wb → workbook_wf wb) →
  main translate loaded save_ok = ErrorReported ↔ loaded = None ∨ save_ok = false.
Proof.
  intros Hwf. unfold main, translate_excel_sheets_io.
  destruct loaded as [wb|]; simpl; [|by split; [left|]].
  destruct (translate_excel_sheets_spec
              {| translator_translate := translate;
                 input_file := input_excel; output_file := output_excel;
                 src_lang := ascii_str "zh-cn"; tgt_lang := ascii_str "en" |}
              one_tenth wb (Hwf wb eq_refl)) as (wb' & st' & -> & _).
  simpl. destruct save_ok; simpl.
  - split; [done|]. by intros [?|?].
  - split; [by right|done].
Qed.

Lemma main_reports_only_io_failures_witness :
  main failing_translator (Some spaced_workbook) true = ErrorReported
  ↔ Some spaced_workbook = None ∨ true = false.
Proof.
  apply (main_reports_only_io_failures failing_translator (Some spaced_workbook) true).
  intros wb [= <-]. apply single_sheet_wf.
Defined.

(** ** Witnesses of the two lemmas on [translate_excel_sheets] above *)

Lemma failed_translation_all_sheets_witness :
  ∃ wb' st' sh',
    translate_excel_sheets failing_env one_tenth spaced_workbook = Some (wb', st')
    ∧ worksheets wb' !! sheet1 = Some sh'
    ∧ sheet_cell sh' (1, 1)
      = {| value := VStr (strip cjk_test_spaced); alignment := wrap_top |}.
Proof.
  apply (failed_translation_all_sheets failing_env one_tenth spaced_workbook sheet1
           spaced_sheet (1, 1) cjk_test_spaced).
  - apply single_sheet_wf.
  - reflexivity.
  - unfold in_grid. simpl. lia.
  - left. apply not_elem_of_empty.
  - reflexivity.
  - reflexivity.
  - reflexivity.
Defined.

Lemma mutated_cells_wrap_top_all_sheets_witness :
  ∃ wb' st' sh',
    translate_excel_sheets sample_env one_tenth sample_workbook = Some (wb', st')
    ∧ worksheets wb' !! sheet1 = Some sh'
    ∧ ∀ x, value (sheet_cell sh' x) ≠ value (sheet_cell sample_sheet x) →
           alignment (sheet_cell sh' x) = wrap_top.
Proof.
  apply (mutated_cells_wrap_top_all_sheets sample_env one_tenth sample_workbook
           sheet1 sample_sheet).
  - apply single_sheet_wf.
  - reflexivity.
Defined.
